(** * numcsv: a tolerant reader and writer of numeric CSV files

    A shallow embedding of [github.com/btracey/numcsv] (file [numcsv.go])
    and of the parts of Go's standard library it calls, followed by the
    properties of the reader and of the writer.

    Conventions.
    - A Go [string] is a sequence of bytes: [String.string].
    - A Go [int] is a [Z].  The only ints of the package are lengths of
      slices and values copied from them, so no operation can wrap around.
    - A Go slice whose nil-ness the code tests or returns is an
      [option (list A)], [None] being [nil]; other slices are lists.
    - A Go [(value, error)] result is a pair whose second component is an
      [option error], [None] being the nil error.
    - Methods on pointers take the receiver's state and return the new state
      next to their result. *)

From Stdlib Require Import String Ascii List ZArith Lia Bool Arith.
From Stdlib Require Import Floats.
From Equations Require Import Equations.
Import ListNotations.

Local Open Scope string_scope.
Local Open Scope Z_scope.

Set Implicit Arguments.

(** ** Byte strings *)

Module Str.

(** [len(s)] *)
Definition len (s : string) : Z := Z.of_nat (String.length s).

(** [s[:n]] and [s[n:]], for [0 <= n <= len(s)] (the slices the models below
    take are always in range). *)
Fixpoint take (n : nat) (s : string) : string :=
  match n, s with
  | S n', String c s' => String c (take n' s')
  | _, _ => EmptyString
  end.

Fixpoint drop (n : nat) (s : string) : string :=
  match n, s with
  | S n', String _ s' => drop n' s'
  | _, _ => s
  end.

(** [s[:n]] again, counting in [Z]. *)
Fixpoint head (s : string) (n : Z) : string :=
  match s with
  | EmptyString => EmptyString
  | String c s' => if n <=? 0 then EmptyString else String c (head s' (n - 1))
  end.

Definition is_empty (s : string) : bool :=
  match s with EmptyString => true | _ => false end.

(** The last byte of a string, and the string without it. *)
Fixpoint last (s : string) : option ascii :=
  match s with
  | EmptyString => None
  | String c EmptyString => Some c
  | String _ s' => last s'
  end.

Fixpoint init (s : string) : string :=
  match s with
  | EmptyString => EmptyString
  | String _ EmptyString => EmptyString
  | String c s' => String c (init s')
  end.

(** The string made of the given byte values. *)
Definition bytes (l : list Z) : string :=
  string_of_list_ascii (map (fun b => ascii_of_N (Z.to_N b)) l).

Definition byte (c : ascii) : Z := Z.of_N (N_of_ascii c).

(** The strings of a list, one after the other. *)
Definition cat (l : list string) : string := fold_right String.append "" l.

Lemma length_drop n s : String.length (drop n s) = (String.length s - n)%nat.
Proof.
  revert s; induction n as [|n IH]; intros [|c s]; simpl; auto.
Qed.

Lemma length_take n s :
  String.length (take n s) = Nat.min n (String.length s).
Proof.
  revert s; induction n as [|n IH]; intros [|c s]; simpl; auto.
Qed.

Lemma take_drop n s : (take n s ++ drop n s)%string = s.
Proof.
  revert s; induction n as [|n IH]; intros [|c s]; simpl; auto.
  now rewrite IH.
Qed.

Lemma length_app s t :
  String.length (s ++ t) = (String.length s + String.length t)%nat.
Proof. induction s; simpl; auto. Qed.

Lemma app_assoc (s t u : string) : ((s ++ t) ++ u = s ++ (t ++ u))%string.
Proof. induction s; simpl; congruence. Qed.

Lemma app_nil_r (s : string) : (s ++ "")%string = s.
Proof. induction s; simpl; congruence. Qed.

Lemma drop_app s t : drop (String.length s) (s ++ t) = t.
Proof. induction s; simpl; auto. Qed.

Lemma take_app s t : take (String.length s) (s ++ t) = s.
Proof. induction s; simpl; [destruct t; auto | congruence]. Qed.

End Str.

Abbreviation len := Str.len.

Definition LF : ascii := ascii_of_nat 10.
Definition CR : ascii := ascii_of_nat 13.
Definition quote : string := String (ascii_of_nat 34) "".
Definition nl : string := String LF "".
Definition crlf : string := String CR (String LF "").

(** ** Package [unicode/utf8]: the length of the first rune *)

Module utf8.

Definition between (lo hi : Z) (c : ascii) : bool :=
  (lo <=? Str.byte c) && (Str.byte c <=? hi).

Definition in_range (lo hi : Z) (s : string) (i : nat) : bool :=
  match String.get i s with
  | Some c => between lo hi c
  | None => false
  end.

Definition cont_at (s : string) (i : nat) : bool := in_range 128 191 s i.

(** The number of bytes [DecodeRuneInString] consumes at the head of a
    non-empty string: the width of a well-formed UTF-8 sequence, and 1 for a
    byte that starts none (the decoder then yields [RuneError]). *)
Definition rune_len (s : string) : nat :=
  (if in_range 0 127 s 0 then 1
   else if in_range 194 223 s 0 then
     if cont_at s 1 then 2 else 1
   else if in_range 224 224 s 0 then
     if in_range 160 191 s 1 && cont_at s 2 then 3 else 1
   else if in_range 237 237 s 0 then
     if in_range 128 159 s 1 && cont_at s 2 then 3 else 1
   else if in_range 225 239 s 0 then
     if cont_at s 1 && cont_at s 2 then 3 else 1
   else if in_range 240 240 s 0 then
     if in_range 144 191 s 1 && cont_at s 2 && cont_at s 3 then 4 else 1
   else if in_range 241 243 s 0 then
     if cont_at s 1 && cont_at s 2 && cont_at s 3 then 4 else 1
   else if in_range 244 244 s 0 then
     if in_range 128 143 s 1 && cont_at s 2 && cont_at s 3 then 4 else 1
   else 1)%nat.

Lemma rune_len_pos s : (1 <= rune_len s)%nat.
Proof.
  unfold rune_len.
  repeat match goal with
         | |- context [match ?x with _ => _ end] => destruct x
         end; lia.
Qed.

End utf8.

(** ** Package [strings] *)

Module strings.

(** [HasPrefix(s, prefix)] *)
Fixpoint HasPrefix (s prefix : string) : bool :=
  match prefix, s with
  | EmptyString, _ => true
  | String p prefix', String c s' => Ascii.eqb c p && HasPrefix s' prefix'
  | String _ _, EmptyString => false
  end.

(** [HasSuffix(s, suffix)] *)
Definition HasSuffix (s suffix : string) : bool :=
  (String.length suffix <=? String.length s)%nat &&
  String.eqb (Str.drop (String.length s - String.length suffix) s) suffix.

(** [TrimPrefix(s, prefix)] *)
Definition TrimPrefix (s prefix : string) : string :=
  if HasPrefix s prefix then Str.drop (String.length prefix) s else s.

(** [TrimSuffix(s, suffix)] *)
Definition TrimSuffix (s suffix : string) : string :=
  if HasSuffix s suffix
  then Str.take (String.length s - String.length suffix) s
  else s.

(** [explode(s, -1)]: the UTF-8 sequences of [s], one string each; a byte
    that starts no well-formed sequence stands alone. *)
Equations? explode (s : string) : list string by wf (String.length s) lt :=
  explode EmptyString := [];
  explode s := Str.take (utf8.rune_len s) s :: explode (Str.drop (utf8.rune_len s) s).
Proof.
  rewrite Str.length_drop.
  pose proof (utf8.rune_len_pos s). subst s; simpl String.length. lia.
Qed.

(** [genSplit(s, sep, 0, -1)] for a non-empty separator, which Go computes
    with [Index]: cut at the leftmost occurrence of [sep], go on after it.
    [skip] counts the bytes of a separator still to be passed over and [cur]
    holds the bytes of the piece being read. *)
Fixpoint split_from (sep : string) (skip : nat) (cur : string) (s : string)
  : list string :=
  match s with
  | EmptyString => [cur]
  | String c s' =>
      match skip with
      | S k => split_from sep k cur s'
      | O =>
          if HasPrefix s sep
          then cur :: split_from sep (String.length sep - 1) EmptyString s'
          else split_from sep 0 (cur ++ String c EmptyString) s'
      end
  end.

(** [Split(s, sep)] *)
Definition Split (s sep : string) : list string :=
  if Str.is_empty sep then explode s else split_from sep 0 EmptyString s.

(** The encodings of the runes for which [unicode.IsSpace] holds: tab, line
    feed, vertical tab, form feed, carriage return, space, U+0085, U+00A0,
    U+1680, U+2000 to U+200A, U+2028, U+2029, U+202F, U+205F, U+3000. *)
Definition space_runes : list string :=
  map Str.bytes
    (List.app
       [[9]; [10]; [11]; [12]; [13]; [32]; [194; 133]; [194; 160];
        [225; 154; 128]]
       (List.app
          (map (fun b => [226; 128; b])
             [128; 129; 130; 131; 132; 133; 134; 135; 136; 137; 138])
          [[226; 128; 168]; [226; 128; 169]; [226; 128; 175];
           [226; 129; 159]; [227; 128; 128]])).

Definition IsSpace (rune : string) : bool :=
  existsb (String.eqb rune) space_runes.

Fixpoint drop_while (p : string -> bool) (l : list string) : list string :=
  match l with
  | [] => []
  | x :: l' => if p x then drop_while p l' else l
  end.

(** [TrimSpace(s)]: [s] without its leading and its trailing white space.
    Go decodes runes forwards from the left end and backwards from the right
    end; since no encoding of a white-space rune starts with a continuation
    byte, both walks stop at boundaries of the forward decoding. *)
Definition TrimSpace (s : string) : string :=
  Str.cat (rev (drop_while IsSpace (rev (drop_while IsSpace (explode s))))).

(** [Join(a, sep)] *)
Definition Join (a : list string) (sep : string) : string :=
  String.concat sep a.

End strings.

Import strings.

(** ** Errors

    Go's error values that can reach a caller of the package: its own two
    sentinels, the errors of [bufio] and [io], the [*strconv.NumError] of
    [ParseFloat], and whatever error the underlying stream reports. *)

Inductive numErr : Type := ErrSyntax | ErrRange.

Inductive error : Type :=
| ErrTrailingComma
| ErrFieldCount
| ErrTooLong
| ErrShortWrite
| NumError (Func Num : string) (Err : numErr)
| StreamError (msg : string).

(** A computation that may panic. *)
Inductive run (A : Type) : Type :=
| Ret (a : A)
| Panic (why : string).
Arguments Panic {A} why.

Definition bind {A B} (m : run A) (k : A -> run B) : run B :=
  match m with
  | Ret a => k a
  | Panic why => Panic why
  end.

Notation "x <- m ;; k" := (bind m (fun x => k))
  (at level 61, m at next level, right associativity).

Definition inspect {A} (a : A) : {b : A | a = b} := exist _ a eq_refl.

(** ** Package [strconv]

    [ParseFloat] and [FormatFloat] are taken as given, for any type of
    64-bit floating-point values.  The one fact used about them is the
    documented shape of [ParseFloat]'s errors: a [*NumError] with
    [Func = "ParseFloat"] and [Num] the string that was passed. *)

Class Strconv (float64 : Type) : Type := {
  zero : float64;
  ParseFloat : string -> Z -> float64 * option error;
  FormatFloat : float64 -> ascii -> Z -> Z -> string;
  ParseFloat_error : forall s bitSize f e,
    ParseFloat s bitSize = (f, Some e) ->
    exists k, e = NumError "ParseFloat" s k
}.

(** ** Package [io]: the sink a writer writes to

    An [io.Writer] is modelled by the bytes it has taken and by the number
    of bytes it will still take before it fails: [None] for a sink that
    never fails (a [bytes.Buffer]), [Some n] for one that takes [n] more
    bytes and then reports [failure] (a full disk, a closed pipe). *)

Module io.

Record Writer : Type := mkWriter {
  written : string;
  room : option Z;
  failure : error
}.

(** [Write(p)] takes all of [p], or what there is room for together with
    the error. *)
Definition Write (w : Writer) (p : string) : (Z * option error) * Writer :=
  match room w with
  | None => ((len p, None), mkWriter (written w ++ p) None (failure w))
  | Some n =>
      if len p <=? n then
        ((len p, None), mkWriter (written w ++ p) (Some (n - len p)) (failure w))
      else
        ((Z.max 0 n, Some (failure w)),
         mkWriter (written w ++ Str.take (Z.to_nat n) p) (Some 0) (failure w))
  end.

End io.

(** ** Package [bufio]: [Scanner] with the default split function
    [ScanLines], and [Writer]

    The source the scanner reads is modelled by the bytes it still has to
    deliver and by the way it ends: [None] for [io.EOF], [Some e] for an
    error, reported by a read that returns no data. *)

Module bufio.

Definition MaxScanTokenSize : Z := 64 * 1024.

Record Scanner : Type := mkScanner {
  src : string;            (* bytes not yet returned as tokens *)
  srcEnd : option error;   (* how the source ends; [None] is [io.EOF] *)
  token : string;          (* the last token *)
  err : option error       (* the first error met that is not [io.EOF] *)
}.

Definition NewScanner (data : string) (e : option error) : Scanner :=
  mkScanner data e "" None.

(** [bytes.IndexByte] *)
Fixpoint IndexByte (s : string) (c : ascii) : option Z :=
  match s with
  | EmptyString => None
  | String b s' =>
      if Ascii.eqb b c then Some 0
      else match IndexByte s' c with
           | Some i => Some (i + 1)
           | None => None
           end
  end.

(** [dropCR] *)
Definition dropCR (data : string) : string :=
  match Str.last data with
  | Some c => if Ascii.eqb c CR then Str.init data else data
  | None => data
  end.

(** [Scan].  A line is a token when its terminating line feed is among the
    first [MaxScanTokenSize] bytes held; with that many bytes and no line
    feed the scanner fails with [ErrTooLong].  At the end of the source the
    bytes left, if any, are the last token.  After an error the scanner
    reads no more and splits what it holds as at the end of the source. *)
Definition Scan (s : Scanner) : bool * Scanner :=
  match err s with
  | Some _ =>
      if Str.is_empty (src s) then (false, mkScanner "" (srcEnd s) "" (err s))
      else
        match IndexByte (src s) LF with
        | Some i =>
            (true, mkScanner (Str.drop (Z.to_nat (i + 1)) (src s)) (srcEnd s)
                     (dropCR (Str.take (Z.to_nat i) (src s))) (err s))
        | None => (true, mkScanner "" (srcEnd s) (dropCR (src s)) (err s))
        end
  | None =>
      match IndexByte (src s) LF with
      | Some i =>
          if i <? MaxScanTokenSize then
            (true, mkScanner (Str.drop (Z.to_nat (i + 1)) (src s)) (srcEnd s)
                     (dropCR (Str.take (Z.to_nat i) (src s))) None)
          else
            (false, mkScanner (Str.head (src s) MaxScanTokenSize)
                      (srcEnd s) "" (Some ErrTooLong))
      | None =>
          if MaxScanTokenSize <=? len (src s) then
            (false, mkScanner (Str.head (src s) MaxScanTokenSize)
                      (srcEnd s) "" (Some ErrTooLong))
          else if Str.is_empty (src s) then
            (false, mkScanner "" (srcEnd s) "" (srcEnd s))
          else
            (true, mkScanner "" (srcEnd s) (dropCR (src s)) (srcEnd s))
      end
  end.

(** [Text] and [Err] *)
Definition Text (s : Scanner) : string := token s.
Definition Err (s : Scanner) : option error := err s.

Lemma IndexByte_bounds s c i :
  IndexByte s c = Some i -> 0 <= i < len s.
Proof.
  revert i; induction s as [|b s IH]; simpl; intros i; [discriminate|].
  unfold len in *; simpl String.length.
  destruct (Ascii.eqb b c).
  - intros [= <-]. lia.
  - destruct (IndexByte s c) as [j|]; [|discriminate].
    intros [= <-]. specialize (IH j eq_refl). lia.
Qed.

(** Every token costs the source at least one byte. *)
Lemma Scan_consumes s s' :
  Scan s = (true, s') -> (String.length (src s') < String.length (src s))%nat.
Proof.
  unfold Scan.
  assert (Hi : forall i, IndexByte (src s) LF = Some i ->
     (String.length (Str.drop (Z.to_nat (i + 1)) (src s))
        < String.length (src s))%nat).
  { intros i Hi. apply IndexByte_bounds in Hi. unfold len in Hi.
    rewrite Str.length_drop. lia. }
  assert (He : Str.is_empty (src s) = false -> (0 < String.length (src s))%nat).
  { destruct (src s); simpl; [discriminate | lia]. }
  destruct (err s).
  - destruct (Str.is_empty (src s)) eqn:E; [discriminate|].
    destruct (IndexByte (src s) LF) eqn:I; intros [= <-]; simpl; auto.
  - destruct (IndexByte (src s) LF) eqn:I.
    + destruct (z <? MaxScanTokenSize); [|discriminate].
      intros [= <-]; simpl; auto.
    + destruct (MaxScanTokenSize <=? len (src s)); [discriminate|].
      destruct (Str.is_empty (src s)) eqn:E; [discriminate|].
      intros [= <-]; simpl; auto.
Qed.

(** *** [bufio.Writer] *)

Definition defaultBufSize : Z := 4096.

Record Writer : Type := mkWriter {
  buf : string;            (* the bytes buffered, [b.buf[0:b.n]] *)
  werr : option error;     (* [b.err] *)
  wr : io.Writer
}.

Definition NewWriter (w : io.Writer) : Writer := mkWriter "" None w.

Definition Available (b : Writer) : Z := defaultBufSize - len (buf b).

Definition is_nil {A} (e : option A) : bool :=
  match e with None => true | Some _ => false end.

(** [Flush] *)
Definition Flush (b : Writer) : option error * Writer :=
  match werr b with
  | Some e => (Some e, b)
  | None =>
      if len (buf b) =? 0 then (None, b)
      else
        let '((n, e), wr') := io.Write (wr b) (buf b) in
        let e := if (n <? len (buf b)) && is_nil e then Some ErrShortWrite
                 else e in
        match e with
        | Some e => (Some e, mkWriter (Str.drop (Z.to_nat n) (buf b)) (Some e) wr')
        | None => (None, mkWriter "" None wr')
        end
  end.

Definition chunks_left (b : Writer) (s : string) : nat :=
  match werr b with
  | Some _ => 0%nat
  | None => (String.length s + (if (Available b <=? 0)%Z then 1 else 0))%nat
  end.

(** The loop of [WriteString]: while [s] does not fit in the room left and
    no error has occurred, fill the buffer and flush it.  Returns the state,
    what is left of [s] and the count of bytes taken.  (Releases of Go that
    hand a long string straight to a sink with a [WriteString] method cut
    the bytes into other chunks; the bytes written are the same.) *)
Equations? write_chunks (b : Writer) (s : string) (nn : Z)
  : Writer * string * Z by wf (chunks_left b s) lt :=
  write_chunks b s nn with inspect ((Available b <? len s) && is_nil (werr b)) := {
    | exist _ false _ => (b, s, nn)
    | exist _ true _ =>
        let n := Z.to_nat (Available b) in
        let b1 := mkWriter (buf b ++ Str.take n s) (werr b) (wr b) in
        write_chunks (snd (Flush b1)) (Str.drop n s) (nn + Z.of_nat n) }.
Proof.
  apply andb_prop in e as [Hlt Hnil]. clear write_chunks.
  subst b1. revert Hlt. subst n.
  destruct b as [bf [e|] sink]; [discriminate|]. clear Hnil.
  unfold chunks_left at 2. unfold Available. cbn [werr buf].
  intros Hlt. apply Z.ltb_lt in Hlt.
  set (n := Z.to_nat (defaultBufSize - len bf)) in *.
  assert (Hn : (n <= String.length s)%nat) by (unfold n, len in *; lia).
  assert (Hbuf : len (bf ++ Str.take n s) = len bf + Z.of_nat n).
  { unfold len. rewrite Str.length_app, Str.length_take. lia. }
  unfold Flush, chunks_left, Available. cbn [werr buf wr].
  rewrite Hbuf.
  destruct (Z.eqb_spec (len bf + Z.of_nat n) 0) as [E|E].
  - exfalso. unfold defaultBufSize, len in *. lia.
  - destruct (io.Write sink (bf ++ Str.take n s)) as [[k e] sink'].
    destruct (if (k <? len bf + Z.of_nat n) && is_nil e
              then Some ErrShortWrite else e) as [e'|]; cbn [snd werr buf].
    + destruct (Z.leb_spec (defaultBufSize - len bf) 0);
        unfold len in *; lia.
    + rewrite Str.length_drop. change (len "") with 0.
      change (defaultBufSize - 0 <=? 0) with false.
      destruct (Z.leb_spec (defaultBufSize - len bf) 0);
        unfold n, len, defaultBufSize in *; lia.
Qed.

(** [WriteString] *)
Definition WriteString (b : Writer) (s : string) : (Z * option error) * Writer :=
  let '(b, s, nn) := write_chunks b s 0 in
  match werr b with
  | Some e => ((nn, Some e), b)
  | None => ((nn + len s, None), mkWriter (buf b ++ s) None (wr b))
  end.

(** All the bytes the writer has taken and not lost: those the sink has,
    then those in the buffer. *)
Definition out (b : Writer) : string := io.written (wr b) ++ buf b.

(** [wrote b s res b']: an operation asked to write [s] in state [b] ended
    in state [b'] with the result [res].  Without an error the writer has
    taken all of [s] and is in no other error state than before; with an
    error it has taken a prefix of [s] and is in
    the error state, where [Flush] writes nothing more. *)
Definition wrote (b : Writer) (s : string) (res : option error) (b' : Writer)
  : Prop :=
  match res with
  | None => out b' = out b ++ s /\ werr b' = werr b
  | Some e => werr b' = Some e /\ exists p q, s = p ++ q /\ out b' = out b ++ p
  end.

(** A writer that has not failed, on a sink that never fails. *)
Definition good (b : Writer) : Prop :=
  werr b = None /\ io.room (wr b) = None.

(** [WriteByte] *)
Definition WriteByte (b : Writer) (c : ascii) : option error * Writer :=
  match werr b with
  | Some e => (Some e, b)
  | None =>
      if Available b <=? 0 then
        let '(e, b) := Flush b in
        match e with
        | Some _ => (werr b, b)
        | None => (None, mkWriter (buf b ++ String c "") (werr b) (wr b))
        end
      else (None, mkWriter (buf b ++ String c "") None (wr b))
  end.

End bufio.

Import bufio.

(** ** Slices *)

(** [l[i] = v]: [None] when [i] is out of range, where Go panics. *)
Fixpoint store {A} (l : list A) (i : nat) (v : A) : option (list A) :=
  match l, i with
  | [], _ => None
  | _ :: l', O => Some (v :: l')
  | x :: l', S i' =>
      match store l' i' v with
      | Some l'' => Some (x :: l'')
      | None => None
      end
  end.

(** [l] with the cells from index [k] on replaced by those of [new]. *)
Definition splice {A} (l : list A) (k : nat) (new : list A) : list A :=
  (firstn k l ++ new ++ skipn (k + length new) l)%list.

(** ** Package [mat64]: the dense matrix [ReadAll] builds and [WriteAll]
    reads *)

Module mat64.
Section Dense.
Context {float64 : Type} `{Strconv float64}.

(** [RawMatrix], row major. *)
Record Dense : Type := mkDense {
  Rows : Z;
  Cols : Z;
  Stride : Z;
  Data : list float64
}.

(** [NewDense(r, c, nil)] allocates [r*c] zeros; [make] panics on a negative
    length. *)
Definition NewDense (r c : Z) : run Dense :=
  if r * c <? 0 then Panic "makeslice: len out of range"
  else Ret (mkDense r c c (repeat zero (Z.to_nat (r * c)))).

(** [Dims] *)
Definition Dims (m : Dense) : Z * Z := (Rows m, Cols m).

(** [Set(i, j, v)] writes [Data[i*Stride+j]].  Outside the matrix it
    panics; releases of the library without that check agree with this one
    on every index inside the matrix. *)
Definition Set_ (m : Dense) (i j : Z) (v : float64) : run Dense :=
  if (0 <=? i) && (i <? Rows m) && (0 <=? j) && (j <? Cols m) then
    match store (Data m) (Z.to_nat (i * Stride m + j)) v with
    | Some d => Ret (mkDense (Rows m) (Cols m) (Stride m) d)
    | None => Panic "index out of range"
    end
  else Panic "index out of range".

(** [RowView(i)]: the slice [Data[i*Stride : i*Stride+Cols]]. *)
Definition RowView (m : Dense) (i : Z) : run (list float64) :=
  if (0 <=? i) && (i <? Rows m) && (0 <=? Cols m)
     && (i * Stride m + Cols m <=? Z.of_nat (length (Data m)))
  then Ret (firstn (Z.to_nat (Cols m))
              (skipn (Z.to_nat (i * Stride m)) (Data m)))
  else Panic "index out of range".

End Dense.
Arguments Dense float64 : clear implicits.
End mat64.

(** ** The reader *)

Section Reader.
Context {float64 : Type} `{Strconv float64}.

(** The field [reader] of the Go struct is the source the scanner was built
    on; it is read through the scanner only and lives in its model. *)
Record Reader : Type := mkReader {
  Comma : string;
  HeadingComma : string;
  Comment : string;
  FieldsPerRecord : Z;
  NoHeading : bool;
  hasEndingComma : bool;
  scanner : Scanner;
  lineRead : bool
}.

Definition NewReader (data : string) (e : option error) : Reader :=
  mkReader "," "" "" 0 false false (NewScanner data e) false.

Definition set_scanner (r : Reader) (s : Scanner) : Reader :=
  mkReader (Comma r) (HeadingComma r) (Comment r) (FieldsPerRecord r)
    (NoHeading r) (hasEndingComma r) s (lineRead r).

Definition set_FieldsPerRecord (r : Reader) (n : Z) : Reader :=
  mkReader (Comma r) (HeadingComma r) (Comment r) n
    (NoHeading r) (hasEndingComma r) (scanner r) (lineRead r).

Definition set_lineRead (r : Reader) (b : bool) : Reader :=
  mkReader (Comma r) (HeadingComma r) (Comment r) (FieldsPerRecord r)
    (NoHeading r) (hasEndingComma r) (scanner r) b.

(** The loop both [ReadHeading] and [Read] run over the pieces of a line:
    trim each one, keep those that are not empty. *)
Fixpoint nonblank (strs : list string) : list string :=
  match strs with
  | [] => []
  | str :: rest =>
      let str := TrimSpace str in
      if negb (len str =? 0) then str :: nonblank rest else nonblank rest
  end.

(** The scanning loop of [ReadHeading]; [line] is the variable of that name,
    assigned at each turn and read after the loop. *)
Equations? heading_line (comment : string) (s : Scanner) (line : string)
  : string * Scanner by wf (String.length (src s)) lt :=
  heading_line comment s line with inspect (Scan s) := {
    | exist _ (false, s') _ => (line, s')
    | exist _ (true, s') _ =>
        if String.eqb (Text s') "" then heading_line comment s' (Text s')
        else if negb (String.eqb comment "") && HasPrefix (Text s') comment
        then heading_line comment s' (Text s')
        else (Text s', s') }.
Proof. all: now apply Scan_consumes. Qed.

(** Removal of one quotation mark at each end. *)
Definition unquote (str : string) : string :=
  TrimPrefix (TrimSuffix str quote) quote.

Definition ReadHeading (r : Reader)
  : (option (list string) * option error) * Reader :=
  let '(line, s) := heading_line (Comment r) (scanner r) "" in
  let r := set_scanner r s in
  match Err s with
  | Some err => ((None, Some err), r)
  | None =>
      let comma := if String.eqb (HeadingComma r) "" then Comma r
                   else HeadingComma r in
      let strs := Split line (Comma r) in
      let headings := nonblank strs in
      if negb (FieldsPerRecord r =? 0)
         && negb (Z.of_nat (length headings) =? FieldsPerRecord r)
      then ((None, Some ErrFieldCount), r)
      else
        let r := set_FieldsPerRecord r (Z.of_nat (length headings)) in
        let r := set_lineRead r true in
        match headings with
        | [] => ((None, None), r)
        | _ => ((Some (map unquote headings), None), r)
        end
  end.

(** [data[i] = v] in the parsing loop of [Read].  The loop is entered with
    [len(data) == len(strs)], by the test that precedes it, and [i] ranges
    over the indices of [strs]: the index is always in range
    (lemma [parse_fields_in_range]), and the model leaves [data] alone
    where Go would panic. *)
Definition assign (data : list float64) (i : nat) (v : float64)
  : list float64 :=
  match store data i v with
  | Some data' => data'
  | None => data
  end.

(** The parsing loop of [Read], from index [i] on. *)
Fixpoint parse_fields (strs : list string) (i : nat) (data : list float64)
  : option (list float64) * option error :=
  match strs with
  | [] => (Some data, None)
  | str :: rest =>
      let '(v, err) := ParseFloat str 64 in
      let data := assign data i v in
      match err with
      | Some e => (None, Some e)
      | None => parse_fields rest (S i) data
      end
  end.

Definition Read (r : Reader)
  : (option (list float64) * option error) * Reader :=
  let '(b, s) := Scan (scanner r) in
  let r := set_scanner r s in
  if negb b then ((None, Err s), r)
  else
    let line := Text s in
    let allStrs := Split line (Comma r) in
    let strs := nonblank allStrs in
    let r :=
      if negb (lineRead r) then
        let r := set_lineRead r true in
        if FieldsPerRecord r =? 0
        then set_FieldsPerRecord r (Z.of_nat (length strs))
        else r
      else r in
    if negb (Z.of_nat (length strs) =? FieldsPerRecord r)
    then ((None, Some ErrFieldCount), r)
    else
      let data := repeat zero (Z.to_nat (FieldsPerRecord r)) in
      (parse_fields strs 0 data, r).

(** The tokens of a line: its pieces at the delimiter, trimmed, the empty
    ones left out. *)
Definition fields (comma line : string) : list string :=
  nonblank (Split line comma).

(** [padded l l']: the pieces [l'] are the pieces [l] with blank pieces
    (empty once trimmed) put in between, before or after. *)
Definition blank (s : string) : bool := Str.is_empty (TrimSpace s).

Fixpoint padded (l l' : list string) : bool :=
  match l' with
  | [] => match l with [] => true | _ => false end
  | y :: l'' =>
      match l with
      | x :: lt =>
          if String.eqb x y then padded lt l'' else blank y && padded l l''
      | [] => blank y && padded [] l''
      end
  end.

(** [whole sep t]: a split at [sep] leaves [t] whole when [sep] follows
    it, because [sep] occurs in [t ++ sep] at the very end only.  For a
    one-byte delimiter this says that [t] does not contain it. *)
Fixpoint whole (sep t : string) : bool :=
  match t with
  | EmptyString => true
  | String _ t' => negb (HasPrefix (t ++ sep) sep) && whole sep t'
  end.

(** The tokens that read back as they are: trimmed, not empty, whole. *)
Definition tok_ok (comma t : string) : bool :=
  String.eqb (TrimSpace t) t && negb (Str.is_empty t) && whole comma t.

(** The lines the scanner returns as they are: without a line feed, short
    enough for the buffer of the scanner, and not ending in a carriage
    return (which no line does whose last token is trimmed). *)
Definition line_ok (line : string) : bool :=
  is_nil (IndexByte line LF)
  && (len line + 1 <? MaxScanTokenSize)
  && String.eqb (dropCR line) line.

(** The lines the heading search does not skip. *)
Definition usable (comment line : string) : bool :=
  negb (String.eqb line "")
  && negb (negb (String.eqb comment "") && HasPrefix line comment).

(** What the first data line does to the expected field count. *)
Definition establish (r : Reader) (n : Z) : Reader :=
  if negb (lineRead r) then
    let r := set_lineRead r true in
    if FieldsPerRecord r =? 0 then set_FieldsPerRecord r n else r
  else r.

(** The first token [ParseFloat] rejects, with its index and the error. *)
Fixpoint first_bad (strs : list string) (i : Z) : option (Z * string * error) :=
  match strs with
  | [] => None
  | str :: rest =>
      match snd (ParseFloat str 64) with
      | Some e => Some (i, str, e)
      | None => first_bad rest (i + 1)
      end
  end.

Definition values (strs : list string) : list float64 :=
  map (fun str => fst (ParseFloat str 64)) strs.

Lemma Read_consumes r data e r' :
  Read r = ((Some data, e), r') ->
  (String.length (src (scanner r')) < String.length (src (scanner r)))%nat.
Proof.
  unfold Read. destruct (Scan (scanner r)) as [b s] eqn:E.
  destruct b; simpl; [|discriminate].
  apply Scan_consumes in E.
  repeat match goal with
         | |- context [if ?c then _ else _] => destruct c
         end; intros Heq; try discriminate;
    injection Heq as _ <-; exact E.
Qed.

(** The loop of [ReadAll]: the rows read up to the end of the stream, or
    the first error. *)
Equations? read_rows (r : Reader) (alldata : list (list float64))
  : (list (list float64) + error) * Reader
  by wf (String.length (src (scanner r))) lt :=
  read_rows r alldata with inspect (Read r) := {
    | exist _ ((_, Some err), r') _ => (inr err, r')
    | exist _ ((None, None), r') _ => (inl alldata, r')
    | exist _ ((Some data, None), r') _ =>
        read_rows r' (List.app alldata [data]) }.
Proof. eapply Read_consumes; eassumption. Qed.

(** The loop [for j, v := range record { mat.Set(i, j, v) }] *)
Fixpoint set_row (mat : mat64.Dense float64) (i j : Z) (record : list float64)
  : run (mat64.Dense float64) :=
  match record with
  | [] => Ret mat
  | v :: record' =>
      mat <- mat64.Set_ mat i j v ;;
      set_row mat i (j + 1) record'
  end.

(** The loop [for i, record := range alldata] *)
Fixpoint set_rows (mat : mat64.Dense float64) (i : Z)
  (alldata : list (list float64)) : run (mat64.Dense float64) :=
  match alldata with
  | [] => Ret mat
  | record :: alldata' =>
      mat <- set_row mat i 0 record ;;
      set_rows mat (i + 1) alldata'
  end.

Definition ReadAll (r : Reader)
  : run ((option (mat64.Dense float64) * option error) * Reader) :=
  match read_rows r [] with
  | (inr err, r) => Ret ((None, Some err), r)
  | (inl alldata, r) =>
      mat <- mat64.NewDense (Z.of_nat (length alldata)) (FieldsPerRecord r) ;;
      mat <- set_rows mat 0 alldata ;;
      Ret ((Some mat, None), r)
  end.

(** [Reads r rows r']: starting from [r], as many calls of [Read] as there
    are [rows] return these rows, one after the other and with no error, and
    leave the reader in [r']. *)
Inductive Reads : Reader -> list (list float64) -> Reader -> Prop :=
| Reads_nil r : Reads r [] r
| Reads_cons r row r1 rows r' :
    Read r = ((Some row, None), r1) ->
    Reads r1 rows r' ->
    Reads r (row :: rows) r'.

(** The field count a reader expects of its rows: the count it holds, when
    a heading was read or a count was set beforehand, and else the number of
    non-blank tokens of the next line ([0] when there is none). *)
Definition expected (r : Reader) : Z :=
  if lineRead r || negb (FieldsPerRecord r =? 0) then FieldsPerRecord r
  else match Scan (scanner r) with
       | (true, s) => Z.of_nat (length (fields (Comma r) (Text s)))
       | (false, _) => 0
       end.

(** [len(h)] for a slice that may be nil. *)
Definition slice_len {A} (h : option (list A)) : Z :=
  match h with
  | Some l => Z.of_nat (length l)
  | None => 0
  end.

(** The table with the given rows, all of length [c]. *)
Definition table (c : Z) (rows : list (list float64)) : mat64.Dense float64 :=
  mat64.mkDense (Z.of_nat (length rows)) c c (concat rows).

(** [r.Comma = comma], the one field the callers of the package assign. *)
Definition set_Comma (r : Reader) (comma : string) : Reader :=
  mkReader comma (HeadingComma r) (Comment r) (FieldsPerRecord r)
    (NoHeading r) (hasEndingComma r) (scanner r) (lineRead r).

(** The reader [r] with other values in [HeadingComma], [NoHeading] and
    [hasEndingComma]. *)
Definition with_unused (r : Reader) (hc : string) (nh hec : bool) : Reader :=
  mkReader (Comma r) hc (Comment r) (FieldsPerRecord r) nh hec
    (scanner r) (lineRead r).

(** The text of some lines, each with its line ending ([true] for a
    carriage return and a line feed, [false] for a line feed). *)
Fixpoint lines_text (lines : list (string * bool)) : string :=
  match lines with
  | [] => ""
  | (line, ending) :: rest =>
      line ++ (if ending then crlf else nl) ++ lines_text rest
  end.

(** Where an error of the scanner [s] comes from: a line too long for its
    buffer, the end of its source, or an error it already holds. *)
Definition stream_error (s : Scanner) (e : error) : Prop :=
  e = ErrTooLong \/ srcEnd s = Some e \/ err s = Some e.

(** Every token of [strs] is a number for [ParseFloat]. *)
Definition numbers (strs : list string) : Prop :=
  Forall (fun str => snd (ParseFloat str 64) = None) strs.

(** A text made of whole lines: empty, or ending in a line feed. *)
Definition ends_lines (text : string) : Prop :=
  text = "" \/ Str.last text = Some LF.

(** [unterminated s1 s2]: the scanners have not failed and hold the same
    token; what [s1] has left of its stream ends, cleanly, with a line that
    is not empty and has no line feed after it, and [s2] has the same with
    that line feed. *)
Definition unterminated (s1 s2 : Scanner) : Prop :=
  exists text line,
    ends_lines text /\ IndexByte line LF = None /\ line <> ""
    /\ s1 = mkScanner (text ++ line) None (token s1) None
    /\ s2 = mkScanner (text ++ line ++ nl) None (token s1) None.

(** [same_but r1 r2]: the readers are at the same place of the same
    stream, or of streams that differ by the last line feed. *)
Definition same_but (r1 r2 : Reader) : Prop :=
  r2 = set_scanner r1 (scanner r2)
  /\ (scanner r2 = scanner r1 \/ unterminated (scanner r1) (scanner r2)).

End Reader.

(** ** The writer *)

Module Writer.
Record Writer : Type := mk {
  Comma : string;
  UseCRLF : bool;
  QuoteHeading : bool;
  FloatFmt : ascii;
  w : bufio.Writer
}.
End Writer.

Section Writer.
Context {float64 : Type} `{Strconv float64}.

Definition NewWriter (w : io.Writer) : Writer.Writer :=
  Writer.mk "," false false "e" (bufio.NewWriter w).

Definition set_w (w : Writer.Writer) (b : bufio.Writer) : Writer.Writer :=
  Writer.mk (Writer.Comma w) (Writer.UseCRLF w) (Writer.QuoteHeading w)
    (Writer.FloatFmt w) b.

(** [_, err = w.w.WriteString(s)] *)
Definition put (w : Writer.Writer) (s : string) : option error * Writer.Writer :=
  let '((_, err), b) := bufio.WriteString (Writer.w w) s in (err, set_w w b).

(** The end of a line, in [WriteHeading] and in [Write]. *)
Definition end_line (w : Writer.Writer) : option error * Writer.Writer :=
  if Writer.UseCRLF w then put w crlf
  else let '(err, b) := bufio.WriteByte (Writer.w w) LF in (err, set_w w b).

(** The loop of [WriteHeading], from index [n] on. *)
Fixpoint heading_fields (w : Writer.Writer) (n : Z) (heading : list string)
  : option error * Writer.Writer :=
  match heading with
  | [] => (None, w)
  | field :: rest =>
      let '(err, w) := if n >? 0 then put w (Writer.Comma w) else (None, w) in
      match err with
      | Some e => (Some e, w)
      | None =>
          let field := if Writer.QuoteHeading w then quote ++ field ++ quote
                       else field in
          let '(err, w) := put w field in
          match err with
          | Some e => (Some e, w)
          | None => heading_fields w (n + 1) rest
          end
      end
  end.

Definition WriteHeading (w : Writer.Writer) (heading : list string)
  : option error * Writer.Writer :=
  let '(err, w) := heading_fields w 0 heading in
  match err with
  | Some e => (Some e, w)
  | None => end_line w
  end.

(** The loop of [Write], from index [n] on. *)
Fixpoint record_fields (w : Writer.Writer) (n : Z) (record : list float64)
  : option error * Writer.Writer :=
  match record with
  | [] => (None, w)
  | field :: rest =>
      let '(err, w) := if n >? 0 then put w (Writer.Comma w) else (None, w) in
      match err with
      | Some e => (Some e, w)
      | None =>
          let str := FormatFloat field (Writer.FloatFmt w) 16 64 in
          let '(err, w) := put w str in
          match err with
          | Some e => (Some e, w)
          | None => record_fields w (n + 1) rest
          end
      end
  end.

Definition Write (w : Writer.Writer) (record : list float64)
  : option error * Writer.Writer :=
  let '(err, w) := record_fields w 0 record in
  match err with
  | Some e => (Some e, w)
  | None => end_line w
  end.

(** What [WriteHeading] and [Write] are to put out. *)
Definition eol (w : Writer.Writer) : string :=
  if Writer.UseCRLF w then crlf else nl.

Definition heading_token (w : Writer.Writer) (field : string) : string :=
  if Writer.QuoteHeading w then quote ++ field ++ quote else field.

Definition value_token (w : Writer.Writer) (field : float64) : string :=
  FormatFloat field (Writer.FloatFmt w) 16 64.

Definition heading_text (w : Writer.Writer) (heading : list string) : string :=
  Join (map (heading_token w) heading) (Writer.Comma w) ++ eol w.

Definition row_text (w : Writer.Writer) (record : list float64) : string :=
  Join (map (value_token w) record) (Writer.Comma w) ++ eol w.

Definition rows_text (w : Writer.Writer) (rows : list (list float64)) : string :=
  Str.cat (map (row_text w) rows).

Definition text (w : Writer.Writer) (headings : option (list string))
  (rows : list (list float64)) : string :=
  match headings with
  | Some h => heading_text w h
  | None => ""
  end ++ rows_text w rows.

(** The strings [strs] with the delimiter in front of each, but for the
    first when [first] holds. *)
Fixpoint seps (first : bool) (comma : string) (strs : list string) : string :=
  match strs with
  | [] => ""
  | str :: rest => (if first then "" else comma) ++ str ++ seps false comma rest
  end.

(** The common shape of the loops of [WriteHeading] and [Write]: the
    strings [strs], each one after the delimiter when it is not the first. *)
Fixpoint write_fields (w : Writer.Writer) (n : Z) (strs : list string)
  : option error * Writer.Writer :=
  match strs with
  | [] => (None, w)
  | str :: rest =>
      let '(err, w) := if n >? 0 then put w (Writer.Comma w) else (None, w) in
      match err with
      | Some e => (Some e, w)
      | None =>
          let '(err, w) := put w str in
          match err with
          | Some e => (Some e, w)
          | None => write_fields w (n + 1) rest
          end
      end
  end.

(** The rows [i], [i+1], ... of a matrix, [k] of them. *)
Fixpoint rows_from (k : nat) (data : mat64.Dense float64) (i : Z)
  : run (list (list float64)) :=
  match k with
  | O => Ret []
  | S k' =>
      row <- mat64.RowView data i ;;
      rows <- rows_from k' data (i + 1) ;;
      Ret (row :: rows)
  end.

Definition rows_of (data : mat64.Dense float64) : run (list (list float64)) :=
  rows_from (Z.to_nat (mat64.Rows data)) data 0.


(** The rows of [n] values that are read back: each value as written is
    trimmed, not empty and whole, and [ParseFloat] accepts it; the line is
    one the scanner returns as it is. *)
Definition row_ok (w : Writer.Writer) (n : nat) (record : list float64) : bool :=
  let toks := map (value_token w) record in
  (length record =? n)%nat
  && forallb (tok_ok (Writer.Comma w)) toks
  && line_ok (Join toks (Writer.Comma w))
  && is_nil (first_bad toks 0).

(** The values [Read] makes of a row that was written. *)
Definition read_back (w : Writer.Writer) (record : list float64)
  : list float64 :=
  values (map (value_token w) record).

(** The loop [for i := 0; i < r; i++] of [WriteAll], with [k] turns left. *)
Fixpoint write_rows (k : nat) (w : Writer.Writer)
  (data : mat64.Dense float64) (i : Z) : run (option error * Writer.Writer) :=
  match k with
  | O => Ret (None, w)
  | S k' =>
      row <- mat64.RowView data i ;;
      let '(err, w) := Write w row in
      match err with
      | Some e => Ret (Some e, w)
      | None => write_rows k' w data (i + 1)
      end
  end.

Definition WriteAll (w : Writer.Writer) (headings : option (list string))
  (data : mat64.Dense float64) : run (option error * Writer.Writer) :=
  let '(err, w) :=
    match headings with
    | Some h => WriteHeading w h
    | None => (None, w)
    end in
  match err with
  | Some e => Ret (Some e, w)
  | None =>
      let '(r, _) := mat64.Dims data in
      res <- write_rows (Z.to_nat r) w data 0 ;;
      match res with
      | (Some e, w) => Ret (Some e, w)
      | (None, w) =>
          let '(err, b) := bufio.Flush (Writer.w w) in Ret (err, set_w w b)
      end
  end.

End Writer.

(** ** The benchmark: reading the data file

    [main] (file [nettrainbench.go]) and [setupBenchmark] start with the
    same statements: open the file, read the heading and the table with a
    space as the delimiter, and check that the table has four columns.
    [log.Fatal] ends the program; what it is called with is the result. *)

Section Benchmark.
Context {float64 : Type} `{Strconv float64}.

Inductive fatal : Type :=
| FatalError (err : error)
| FatalMessage (msg : string).

(** The statements from [numcsv.NewReader(f)] to the check of [nDim], for a
    file that opened and delivers [data] and then ends with [e]. *)
Definition read_data (data : string) (e : option error)
  : run (fatal + mat64.Dense float64) :=
  let r := NewReader data e in
  let r := set_Comma r " " in
  let '((_, err), r) := ReadHeading r in
  match err with
  | Some err => Ret (inl (FatalError err))
  | None =>
      res <- ReadAll r ;;
      let '((allData, err), _) := res in
      match err with
      | Some err => Ret (inl (FatalError err))
      | None =>
          match allData with
          | None => Panic "invalid memory address or nil pointer dereference"
          | Some allData =>
              let '(nSamples, nDim) := mat64.Dims allData in
              if negb (nDim =? 4)
              then Ret (inl (FatalMessage "Code assumes there are 4 columns"))
              else Ret (inr allData)
          end
      end
  end.

End Benchmark.

(** ** A reference instance of [strconv] on IEEE 754 binary64

    The theorems below hold for every instance of [Strconv].  The examples
    run on this one: Rocq's primitive floats, with the decimal grammar of
    [ParseFloat] (sign, digits with at most one point, exponent; [Inf],
    [Infinity] and [NaN] in any case), correct rounding to nearest even, and
    the verbs [e], [E], [f], [g], [G] and [b] of [FormatFloat] for a
    precision that is not negative and [bitSize] 64.  Hexadecimal literals
    and digit separators, which later releases of Go accept, are syntax
    errors here, as they were in the releases this package was written
    for. *)

Module strconv.

Definition is_digit (c : ascii) : bool := utf8.between 48 57 c.
Definition digit_val (c : ascii) : Z := Str.byte c - 48.
Definition digit_chr (d : Z) : ascii := ascii_of_N (Z.to_N (d + 48)).

(** ASCII lower case, for the comparisons that ignore case. *)
Definition lower (c : ascii) : ascii :=
  if utf8.between 65 90 c then ascii_of_N (Z.to_N (Str.byte c + 32)) else c.

Fixpoint to_lower (s : string) : string :=
  match s with
  | EmptyString => EmptyString
  | String c s' => String (lower c) (to_lower s')
  end.

(** The leading digits of [s]: their value after [acc], their number, and
    the rest of [s]. *)
Fixpoint read_digits (s : string) (acc : Z) (nd : Z) : Z * Z * string :=
  match s with
  | String c s' =>
      if is_digit c then read_digits s' (acc * 10 + digit_val c) (nd + 1)
      else (acc, nd, s)
  | EmptyString => (acc, nd, s)
  end.

(** [readFloat]: sign, decimal mantissa and decimal exponent of a literal,
    [None] when [s] is not one. *)
Definition readFloat (s : string) : option (bool * Z * Z) :=
  let '(neg, s) :=
    match s with
    | String "+" s' => (false, s')
    | String "-" s' => (true, s')
    | _ => (false, s)
    end in
  let '(m, nd1, s) := read_digits s 0 0 in
  let '(m, nd2, s) :=
    match s with
    | String "." s' => read_digits s' m 0
    | _ => (m, 0, s)
    end in
  if nd1 + nd2 =? 0 then None
  else
    match s with
    | EmptyString => Some (neg, m, - nd2)
    | String c s' =>
        if Ascii.eqb (lower c) "e" then
          let '(eneg, s') :=
            match s' with
            | String "+" s'' => (false, s'')
            | String "-" s'' => (true, s'')
            | _ => (false, s')
            end in
          let '(e, nde, rest) := read_digits s' 0 0 in
          if (nde =? 0) || negb (Str.is_empty rest) then None
          else Some (neg, m, (if eneg then - e else e) - nd2)
        else None
    end.

(** The float nearest to [m * 10^e], ties to even. *)
Definition nearest (prec emax : Z) (neg : bool) (m e : Z) : spec_float :=
  match m with
  | Zpos _ =>
      let n := m * 10 ^ Z.max e 0 in
      let d := 10 ^ Z.max (- e) 0 in
      SFdiv prec emax (S754_finite neg (Z.to_pos n) 0)
        (S754_finite false (Z.to_pos d) 0)
  | _ => S754_zero neg
  end.

Definition special (s : string) : option float :=
  let l := to_lower s in
  if String.eqb l "inf" || String.eqb l "+inf" || String.eqb l "infinity"
     || String.eqb l "+infinity" then Some infinity
  else if String.eqb l "-inf" || String.eqb l "-infinity" then Some neg_infinity
  else if String.eqb l "nan" then Some nan
  else None.

Definition ParseFloat (s : string) (bitSize : Z) : float * option error :=
  match special s with
  | Some f => (f, None)
  | None =>
      match readFloat s with
      | None => (0%float, Some (NumError "ParseFloat" s ErrSyntax))
      | Some (neg, m, e) =>
          let f := if bitSize =? 32 then nearest 24 128 neg m e
                   else nearest 53 1024 neg m e in
          match f with
          | S754_infinity _ =>
              (SF2Prim f, Some (NumError "ParseFloat" s ErrRange))
          | _ => (SF2Prim f, None)
          end
      end
  end.

(** Decimal digits of a natural number, most significant first. *)
Fixpoint digits_from (fuel : nat) (x : Z) (acc : string) : string :=
  match fuel with
  | O => acc
  | S fuel' =>
      let acc := String (digit_chr (x mod 10)) acc in
      if x <? 10 then acc else digits_from fuel' (x / 10) acc
  end.

Definition itoa (x : Z) : string :=
  digits_from (S (Z.to_nat (Z.log2 x))) x "".

Fixpoint zeros (n : nat) : string :=
  match n with
  | O => ""
  | S n' => String "0" (zeros n')
  end.

(** [x] in decimal on at least [n] digits. *)
Definition pad (n : Z) (x : Z) : string :=
  let s := itoa x in
  zeros (Z.to_nat n - String.length s) ++ s.

(** The largest [k] with [10^k <= n/d], for positive [n] and [d]. *)
Fixpoint log10_up (fuel : nat) (n d k : Z) : Z :=
  match fuel with
  | O => k
  | S fuel' => if d * 10 ^ (k + 1) <=? n then log10_up fuel' n d (k + 1) else k
  end.

Fixpoint log10_down (fuel : nat) (n d j : Z) : Z :=
  match fuel with
  | O => - j
  | S fuel' => if d <=? n * 10 ^ j then - j else log10_down fuel' n d (j + 1)
  end.

Definition floor_log10 (n d : Z) : Z :=
  if d <=? n then log10_up (S (Z.to_nat (Z.log2 n))) n d 0
  else log10_down (S (Z.to_nat (Z.log2 d))) n d 1.

(** [n/d] rounded to an integer, ties to even. *)
Definition round_div (n d : Z) : Z :=
  let q := n / d in
  let r := n mod d in
  if (d <? 2 * r) || ((2 * r =? d) && Z.odd q) then q + 1 else q.

Definition scaled (n d shift : Z) : Z :=
  if 0 <=? shift then round_div (n * 10 ^ shift) d
  else round_div n (d * 10 ^ (- shift)).

(** [n/d] rounded to [nd] significant decimal digits: the digits as a
    number of exactly [nd] digits, and the decimal exponent of the first. *)
Definition round_sig (n d nd : Z) : Z * Z :=
  let k := floor_log10 n d in
  let q := scaled n d (nd - 1 - k) in
  if q =? 10 ^ nd then (10 ^ (nd - 1), k + 1) else (q, k).

Definition sign_str (neg : bool) : string := if neg then "-" else "".

Definition exp_str (e : ascii) (k : Z) : string :=
  String e ((if k <? 0 then "-" else "+") ++ pad 2 (Z.abs k)).

(** [%e]: [digs] holds the [prec+1] digits. *)
Definition fmtE (neg : bool) (digs : string) (k prec : Z) (e : ascii) : string :=
  sign_str neg ++ Str.take 1 digs
  ++ (if 0 <? prec then "." ++ Str.drop 1 digs else "")
  ++ exp_str e k.

(** [%f] of [x / 10^prec]. *)
Definition fmtF (neg : bool) (x prec : Z) : string :=
  sign_str neg ++ itoa (x / 10 ^ prec)
  ++ (if 0 <? prec then "." ++ pad prec (x mod 10 ^ prec) else "").

Fixpoint strip_zeros (fuel : nat) (q : Z) : Z :=
  match fuel with
  | O => q
  | S fuel' => if (q mod 10 =? 0) && negb (q =? 0) then strip_zeros fuel' (q / 10) else q
  end.

(** [%g]: the digits of [round_sig] without their trailing zeros decide
    between [%e] and [%f]. *)
Definition fmtG (neg : bool) (n d prec : Z) (e : ascii) : string :=
  let prec := if prec =? 0 then 1 else prec in
  let '(q, k) := round_sig n d prec in
  let q' := strip_zeros (Z.to_nat prec) q in
  let digs := itoa q' in
  let nd := len digs in
  let dp := k + 1 in
  let eprec := if (nd <? prec) && (dp <=? nd) then nd else prec in
  if (k <? -4) || (eprec <=? k) then
    fmtE neg digs k (Z.min prec nd - 1) e
  else
    let p := if dp <? prec then nd else prec in
    let p := Z.max (p - dp) 0 in
    (* the digits read as an integer once [p] decimals are kept *)
    fmtF neg (q' * 10 ^ (p - (nd - dp))) p.

(** [%b] *)
Definition fmtB (neg : bool) (m e : Z) : string :=
  sign_str neg ++ itoa m ++ "p" ++ (if 0 <=? e then "+" else "-")
  ++ itoa (Z.abs e).

Definition FormatFloat (f : float) (fmt : ascii) (prec bitSize : Z) : string :=
  match Prim2SF f with
  | S754_nan => "NaN"
  | S754_infinity neg => if neg then "-Inf" else "+Inf"
  | sf =>
      let '(neg, m, e) :=
        match sf with
        | S754_finite neg m e => (neg, Zpos m, e)
        | S754_zero neg => (neg, 0, -1074)
        | _ => (false, 0, 0)
        end in
      let n := m * 2 ^ Z.max e 0 in
      let d := 2 ^ Z.max (- e) 0 in
      if Ascii.eqb fmt "b" then fmtB neg m e
      else if Ascii.eqb (lower fmt) "e" then
        if m =? 0 then fmtE neg (zeros (Z.to_nat (prec + 1))) 0 prec fmt
        else let '(q, k) := round_sig n d (prec + 1) in
             fmtE neg (itoa q) k prec fmt
      else if Ascii.eqb fmt "f" then fmtF neg (scaled n d prec) prec
      else if Ascii.eqb (lower fmt) "g" then
        if m =? 0 then sign_str neg ++ "0"
        else fmtG neg n d prec (if Ascii.eqb fmt "g" then "e" else "E")%char
      else String "%" (String fmt "")
  end.

Lemma ParseFloat_NumError s bitSize f e :
  ParseFloat s bitSize = (f, Some e) ->
  exists k, e = NumError "ParseFloat" s k.
Proof.
  unfold ParseFloat.
  destruct (special s); [discriminate|].
  destruct (readFloat s) as [[[neg m] x]|].
  - destruct (if bitSize =? 32 then _ else _);
      intros [= _ <-]; eauto.
  - intros [= _ <-]; eauto.
Qed.

#[export] Instance binary64 : Strconv float :=
  Build_Strconv 0%float ParseFloat FormatFloat ParseFloat_NumError.

End strconv.

(** * Properties *)

(** ** The model of [strings] at work *)

Example Split_ex1 : Split "a,b,,c," "," = ["a"; "b"; ""; "c"; ""].
Proof. reflexivity. Qed.
Example Split_ex2 : Split "xababay" "aba" = ["x"; "bay"].
Proof. reflexivity. Qed.
Example Split_ex3 : Split "" "," = [""].
Proof. reflexivity. Qed.
Example Split_ex4 : Split "abc" "" = ["a"; "b"; "c"].
Proof. reflexivity. Qed.
Example Split_ex5 : Split "" "" = [].
Proof. reflexivity. Qed.
Example TrimSpace_ex1 :
  TrimSpace (Str.bytes [32; 9; 194; 160] ++ "a b" ++ Str.bytes [13; 226; 128; 137])
  = "a b".
Proof. reflexivity. Qed.
Example TrimSpace_ex2 : TrimSpace "   " = "".
Proof. reflexivity. Qed.
Example TrimSuffix_ex : TrimPrefix (TrimSuffix (quote ++ "a" ++ quote) quote) quote = "a".
Proof. reflexivity. Qed.

(** ** Slices and strings *)

Lemma store_Some {A} (l : list A) i v :
  (i < length l)%nat -> store l i v = Some (firstn i l ++ v :: skipn (S i) l)%list.
Proof.
  revert i; induction l as [|x l IH]; intros [|i] Hi; simpl in *; try lia; auto.
  rewrite IH by lia. reflexivity.
Qed.

Lemma store_None {A} (l : list A) i v :
  (length l <= i)%nat -> store l i v = None.
Proof.
  revert i; induction l as [|x l IH]; intros [|i] Hi; simpl in *; try lia; auto.
  rewrite IH by lia. reflexivity.
Qed.

Lemma len_nonneg s : 0 <= len s.
Proof. unfold len. lia. Qed.

Lemma len_zero s : len s = 0 <-> s = "".
Proof.
  unfold len. destruct s; simpl; split; intros; try congruence; try lia.
Qed.


Lemma splice_mid {A} (p m t new : list A) :
  length m = length new ->
  splice (p ++ m ++ t) (length p) new = (p ++ new ++ t)%list.
Proof.
  intros Hm. unfold splice.
  rewrite firstn_app, firstn_all, Nat.sub_diag, firstn_O, app_nil_r.
  rewrite skipn_app, skipn_all2 by lia. simpl.
  replace (length p + length new - length p)%nat with (length m) by lia.
  rewrite skipn_app, skipn_all, Nat.sub_diag. reflexivity.
Qed.

Lemma split3 {A} (l : list A) (k n : nat) :
  (k + n <= length l)%nat ->
  exists p m t, l = (p ++ m ++ t)%list /\ length p = k /\ length m = n.
Proof.
  intros Hl. exists (firstn k l), (firstn n (skipn k l)), (skipn n (skipn k l)).
  rewrite !firstn_skipn, !length_firstn, length_skipn. repeat split; lia.
Qed.

Lemma splice_nil {A} (l : list A) k : (k <= length l)%nat -> splice l k [] = l.
Proof.
  intros. unfold splice. simpl. rewrite Nat.add_0_r. apply firstn_skipn.
Qed.

Lemma splice_all {A} (l new : list A) :
  length l = length new -> splice l 0 new = new.
Proof.
  intros Hl. unfold splice. simpl. rewrite skipn_all2 by lia. apply app_nil_r.
Qed.

Lemma length_splice {A} (l new : list A) k :
  (k + length new <= length l)%nat -> length (splice l k new) = length l.
Proof.
  intros Hl. unfold splice.
  rewrite !length_app, length_firstn, length_skipn. lia.
Qed.

Lemma store_app {A} (p q : list A) x v :
  store (p ++ x :: q) (length p) v = Some (p ++ v :: q)%list.
Proof. induction p as [|y p IH]; simpl; [|rewrite IH]; reflexivity. Qed.

Lemma splice_store {A} (l : list A) k v new :
  (k + S (length new) <= length l)%nat ->
  exists l', store l k v = Some l' /\ length l' = length l
             /\ splice l' (S k) new = splice l k (v :: new).
Proof.
  intros Hl.
  destruct (split3 l k (S (length new))) as (p & m & t & -> & Hp & Hm); [lia|].
  destruct m as [|x m]; [discriminate|]. simpl in Hm.
  exists ((p ++ [v]) ++ m ++ t)%list. subst k. repeat split.
  - rewrite <- app_assoc. apply (store_app p (m ++ t) x v).
  - rewrite !length_app. simpl. lia.
  - replace (S (length p)) with (length (p ++ [v]))
      by (rewrite length_app; simpl; lia).
    rewrite splice_mid by lia.
    rewrite (@splice_mid _ p (x :: m) t (v :: new)) by (simpl; lia).
    rewrite <- app_assoc. reflexivity.
Qed.

Lemma splice_splice {A} (l a b : list A) k :
  (k + length a + length b <= length l)%nat ->
  splice (splice l k a) (k + length a) b = splice l k (a ++ b).
Proof.
  intros Hl.
  destruct (split3 l k (length a + length b)) as (p & m & t & -> & Hp & Hm);
    [lia|].
  destruct (split3 m (length a) (length b)) as (ma & mb & mt & -> & Ha & Hb);
    [lia|].
  assert (mt = []) as ->.
  { rewrite !length_app in Hm. destruct mt; auto. simpl in Hm. lia. }
  rewrite app_nil_r. subst k.
  rewrite <- app_assoc.
  rewrite (@splice_mid _ p ma (mb ++ t) a) by lia.
  rewrite (app_assoc p a).
  replace (length p + length a)%nat with (length (p ++ a))
    by (rewrite length_app; lia).
  rewrite (@splice_mid _ (p ++ a) mb t b) by lia.
  rewrite (app_assoc ma mb t).
  rewrite (@splice_mid _ p (ma ++ mb) t (a ++ b))
    by (rewrite !length_app; lia).
  rewrite <- !app_assoc. reflexivity.
Qed.

Lemma length_concat_uniform {A} (c : nat) (rows : list (list A)) :
  Forall (fun row => length row = c) rows ->
  length (concat rows) = (length rows * c)%nat.
Proof.
  induction 1 as [|r rs Hr _ IH]; simpl; auto.
  rewrite length_app, IH, Hr. reflexivity.
Qed.

Lemma HasPrefix_app s p : HasPrefix (p ++ s) p = true.
Proof.
  induction p as [|c p IH]; simpl; [destruct s; reflexivity|].
  now rewrite Ascii.eqb_refl.
Qed.

(** A prefix test looks at no more bytes than the prefix has. *)
Lemma HasPrefix_long x y p :
  (String.length p <= String.length x)%nat ->
  HasPrefix (x ++ y) p = HasPrefix x p.
Proof.
  revert x; induction p as [|c p IH]; intros [|d x] Hl; simpl in *;
    try lia; auto.
  - destruct y; reflexivity.
  - rewrite IH by lia. reflexivity.
Qed.

Lemma HasPrefix_weaken x y p :
  HasPrefix x p = true -> HasPrefix (x ++ y) p = true.
Proof.
  revert x; induction p as [|c p IH]; intros [|d x]; simpl;
    try discriminate; auto.
  - destruct y; reflexivity.
  - intros [-> Hp]%andb_prop. simpl. auto.
Qed.

(** Passing over the rest of a delimiter. *)
Lemma split_from_skip sep x cur rest :
  split_from sep (String.length x) cur (x ++ rest) = split_from sep 0 cur rest.
Proof.
  induction x as [|c x IH]; simpl; auto.
Qed.

Lemma whole_sep_nonempty sep c t : whole sep (String c t) = true -> sep <> "".
Proof. simpl. intros Hw ->. discriminate. Qed.

(** For a delimiter of one byte, a token is whole when it does not hold
    that byte. *)
Lemma whole_byte c t :
  whole (String c "") t = is_nil (IndexByte t c).
Proof.
  assert (Hnil : forall s, HasPrefix s "" = true) by (intros []; reflexivity).
  induction t as [|d t IH]; [reflexivity|].
  cbn [whole IndexByte String.append HasPrefix]. rewrite IH, Hnil.
  destruct (Ascii.eqb d c); simpl; [reflexivity|].
  destruct (IndexByte t c); reflexivity.
Qed.

Lemma split_from_whole sep t : forall cur rest,
  sep <> "" -> whole sep t = true ->
  split_from sep 0 cur (t ++ sep ++ rest)
  = (cur ++ t) :: split_from sep 0 "" rest.
Proof.
  induction t as [|c t IH]; intros cur rest Hsep Hw.
  - rewrite Str.app_nil_r. destruct sep as [|d sep]; [congruence|].
    change ("" ++ String d sep ++ rest) with (String d (sep ++ rest)).
    cbn [split_from].
    change (String d (sep ++ rest)) with (String d sep ++ rest).
    rewrite HasPrefix_app. simpl String.length.
    replace (S (String.length sep) - 1)%nat with (String.length sep) by lia.
    now rewrite split_from_skip.
  - cbn [whole] in Hw. apply andb_prop in Hw as [Hp Hw].
    apply negb_true_iff in Hp.
    change (String c t ++ sep ++ rest) with (String c (t ++ sep ++ rest)).
    cbn [split_from].
    change (String c (t ++ sep ++ rest)) with (String c t ++ sep ++ rest).
    rewrite <- Str.app_assoc.
    rewrite HasPrefix_long
      by (rewrite Str.length_app; lia).
    rewrite Hp. rewrite IH by auto.
    now rewrite Str.app_assoc.
Qed.

Lemma split_from_whole_last sep t : forall cur,
  sep <> "" -> whole sep t = true -> split_from sep 0 cur t = [cur ++ t].
Proof.
  induction t as [|c t IH]; intros cur Hsep Hw.
  - now rewrite Str.app_nil_r.
  - cbn [whole] in Hw. apply andb_prop in Hw as [Hp Hw].
    apply negb_true_iff in Hp. cbn [split_from].
    destruct (HasPrefix (String c t) sep) eqn:E.
    + apply (HasPrefix_weaken _ sep) in E. congruence.
    + rewrite IH by auto. now rewrite Str.app_assoc.
Qed.

(** Splitting what was joined. *)
Lemma Split_Join sep toks :
  sep <> "" -> toks <> [] -> forallb (whole sep) toks = true ->
  Split (Join toks sep) sep = toks.
Proof.
  intros Hsep Hne Hw. unfold Split.
  destruct sep as [|d sep'] eqn:Es; [congruence|]. cbn [Str.is_empty].
  rewrite <- Es in *. clear Es d sep'.
  destruct toks as [|t toks]; [congruence|]. clear Hne.
  unfold Join. revert t Hw.
  induction toks as [|u toks IH]; intros t Hw; simpl in Hw;
    apply andb_prop in Hw as [Ht Hw].
  - simpl. now apply split_from_whole_last.
  - change (String.concat sep (t :: u :: toks))
      with (t ++ sep ++ String.concat sep (u :: toks)).
    rewrite split_from_whole by auto.
    rewrite IH by auto. reflexivity.
Qed.

(** ** The reader *)

Section ReaderFacts.
Context {float64 : Type} `{Strconv float64}.


Lemma nonblank_app a b : nonblank (a ++ b)%list = (nonblank a ++ nonblank b)%list.
Proof.
  induction a as [|s a IH]; simpl; auto.
  destruct (negb (len (TrimSpace s) =? 0)); simpl; congruence.
Qed.

Lemma parse_fields_spec strs : forall i data,
  length data = (i + length strs)%nat ->
  parse_fields strs i data =
    match first_bad strs (Z.of_nat i) with
    | Some (_, _, e) => (None, Some e)
    | None => (Some (firstn i data ++ values strs)%list, None)
    end.
Proof.
  induction strs as [|str rest IH]; intros i data Hlen; simpl in *.
  - rewrite Nat.add_0_r in Hlen. subst i. rewrite firstn_all, app_nil_r.
    reflexivity.
  - destruct (ParseFloat str 64) as [v [e|]] eqn:E; simpl; [reflexivity|].
    unfold assign. rewrite store_Some by lia.
    rewrite IH.
    + replace (Z.of_nat (S i)) with (Z.of_nat i + 1) by lia.
      destruct (first_bad rest (Z.of_nat i + 1)) as [[[? ?] ?]|]; auto.
      do 2 f_equal.
      rewrite firstn_app, firstn_firstn, Nat.min_r by lia.
      rewrite length_firstn, Nat.min_l by lia.
      replace (S i - i)%nat with 1%nat by lia. simpl.
      rewrite <- app_assoc. reflexivity.
    + rewrite length_app, length_firstn. cbn [Datatypes.length].
      rewrite length_skipn. lia.
Qed.

(** [data[i] = v] never falls out of range in [Read]. *)
Lemma parse_fields_in_range (strs : list string) :
  forall i (data : list float64) v,
  length data = (i + S (length strs))%nat -> store data i v <> None.
Proof. intros i data v Hlen. rewrite store_Some by lia. discriminate. Qed.

Lemma Read_end r s :
  Scan (scanner r) = (false, s) ->
  Read r = ((None, Err s), set_scanner r s).
Proof. unfold Read. intros ->. reflexivity. Qed.

Lemma Read_line r s :
  Scan (scanner r) = (true, s) ->
  let strs := fields (Comma r) (Text s) in
  let r' := establish (set_scanner r s) (Z.of_nat (length strs)) in
  Read r =
    if negb (Z.of_nat (length strs) =? FieldsPerRecord r')
    then ((None, Some ErrFieldCount), r')
    else match first_bad strs 0 with
         | Some (_, _, e) => ((None, Some e), r')
         | None => ((Some (values strs), None), r')
         end.
Proof.
  unfold Read. intros ->. cbv zeta. cbn [negb].
  fold (fields (Comma (set_scanner r s)) (Text s)).
  change (Comma (set_scanner r s)) with (Comma r).
  set (strs := fields (Comma r) (Text s)).
  fold (establish (set_scanner r s) (Z.of_nat (length strs))).
  set (r' := establish (set_scanner r s) (Z.of_nat (length strs))).
  destruct (Z.eqb_spec (Z.of_nat (length strs)) (FieldsPerRecord r')) as [E|E];
    cbn [negb]; [|reflexivity].
  rewrite (parse_fields_spec strs 0).
  - simpl. destruct (first_bad strs 0) as [[[? ?] ?]|]; reflexivity.
  - rewrite repeat_length, <- E. lia.
Qed.

Lemma establish_scanner r n : scanner (establish r n) = scanner r.
Proof.
  unfold establish. destruct (lineRead r); simpl; auto.
  destruct (FieldsPerRecord r =? 0); reflexivity.
Qed.

Lemma establish_lineRead r n : lineRead (establish r n) = true.
Proof.
  unfold establish. destruct (lineRead r) eqn:E; simpl; auto.
  destruct (FieldsPerRecord r =? 0); reflexivity.
Qed.

Lemma establish_Comma r n : Comma (establish r n) = Comma r.
Proof.
  unfold establish. destruct (lineRead r); simpl; auto.
  destruct (FieldsPerRecord r =? 0); reflexivity.
Qed.

(** The expected field count after the first data line: the count already
    set, or else the token count of that line. *)
Lemma establish_FieldsPerRecord r n :
  FieldsPerRecord (establish r n) =
    if negb (lineRead r) && (FieldsPerRecord r =? 0) then n
    else FieldsPerRecord r.
Proof.
  unfold establish. destruct (lineRead r); simpl; auto.
  destruct (FieldsPerRecord r =? 0); reflexivity.
Qed.

(** A result of [Read] is a row, an error, or neither; never a row next to
    an error. *)
Lemma Read_cases r :
  (exists s, Scan (scanner r) = (false, s)
     /\ Read r = ((None, Err s), set_scanner r s))
  \/ (exists s r' e, Scan (scanner r) = (true, s)
     /\ Read r = ((None, Some e), r') /\ scanner r' = s)
  \/ (exists s r' row, Scan (scanner r) = (true, s)
     /\ Read r = ((Some row, None), r') /\ scanner r' = s).
Proof.
  destruct (Scan (scanner r)) as [[|] s] eqn:E.
  - right. pose proof (Read_line r E) as R. cbv zeta in R.
    set (r' := establish _ _) in R.
    assert (Hs : scanner r' = s) by (unfold r'; now rewrite establish_scanner).
    destruct (negb _) in R.
    + left. eauto 10.
    + destruct (first_bad _ 0) as [[[? ?] e]|] in R; [left | right]; eauto 10.
  - left. exists s. split; auto. now apply Read_end.
Qed.

(** Once [Scan] has returned false with no error, it does so again. *)
Lemma Scan_end_stable s0 s :
  Scan s0 = (false, s) -> Err s = None -> Scan s = (false, s).
Proof.
  unfold Scan at 1. unfold Err.
  destruct (err s0) as [e|] eqn:E0.
  - destruct (Str.is_empty (src s0)).
    + intros [= <-]. cbn [err]. congruence.
    + destruct (IndexByte (src s0) LF); discriminate.
  - destruct (IndexByte (src s0) LF) as [i|].
    + destruct (i <? MaxScanTokenSize); [discriminate|].
      intros [= <-]. cbn [err]. discriminate.
    + destruct (MaxScanTokenSize <=? len (src s0)).
      * intros [= <-]. cbn [err]. discriminate.
      * destruct (Str.is_empty (src s0)); [|discriminate].
        intros [= <-]. cbn [err]. intros ->. reflexivity.
Qed.

(** C5. Once [Read] has returned a nil row and a nil error, which it does
    only at the clean end of the stream, every later call, however many are
    made, returns a nil row and a nil error again and leaves the reader as
    it is. *)
Theorem Read_after_end r r' :
  Read r = ((None, None), r') ->
  fst (Scan (scanner r)) = false /\
  forall k : nat,
    Read (Nat.iter k (fun x => snd (Read x)) r') = ((None, None), r').
Proof.
  intros R.
  destruct (Read_cases r) as [(s & E & R') | [(s & r1 & e & E & R' & _)
                                           | (s & r1 & row & E & R' & _)]];
    rewrite R' in R; try discriminate.
  injection R as He <-. rewrite E. split; [reflexivity|].
  assert (Hfix : Read (set_scanner r s) = ((None, None), set_scanner r s)).
  { rewrite (@Read_end (set_scanner r s) s).
    - rewrite He. reflexivity.
    - simpl. now apply Scan_end_stable with (s0 := scanner r). }
  induction k as [|k IH]; simpl; [exact Hfix|].
  rewrite IH. simpl. exact Hfix.
Qed.


(** The empty line has no token, whatever the delimiter. *)
Lemma fields_empty_line comma : fields comma "" = [].
Proof. destruct comma; reflexivity. Qed.

(** C4, as the code has it. When a data line has the expected number of
    non-blank tokens and [ParseFloat] rejects one of them, [Read] returns no
    row, not even a partial one, and the error [ParseFloat] gave for the
    first such token: a [NumError] that carries the text of the token and no
    field position. *)
Theorem Read_parse_error r s i str e :
  Scan (scanner r) = (true, s) ->
  let strs := fields (Comma r) (Text s) in
  let r' := establish (set_scanner r s) (Z.of_nat (length strs)) in
  Z.of_nat (length strs) = FieldsPerRecord r' ->
  first_bad strs 0 = Some (i, str, e) ->
  Read r = ((None, Some e), r')
  /\ exists k, e = NumError "ParseFloat" str k.
Proof.
  intros E strs r' Hcount Hbad.
  pose proof (Read_line r E) as R. cbv zeta in R.
  fold strs r' in R. rewrite Hbad in R.
  rewrite (proj2 (Z.eqb_eq _ _) Hcount) in R. simpl in R.
  split; [exact R|].
  clear - Hbad. revert Hbad. generalize 0.
  induction strs as [|x strs IH]; simpl; intros z; [discriminate|].
  destruct (ParseFloat x 64) as [v [e'|]] eqn:P; simpl.
  - intros [= <- <- <-]. eapply ParseFloat_error; eauto.
  - apply IH.
Qed.


Lemma padded_refl l : padded l l = true.
Proof. induction l as [|x l IH]; simpl; auto. now rewrite String.eqb_refl. Qed.

Lemma padded_cons b l : blank b = true -> padded l (b :: l) = true.
Proof.
  intros Hb. induction l as [|x l IH]; simpl.
  - now rewrite Hb.
  - destruct (String.eqb_spec x b) as [->|_]; [exact IH|].
    now rewrite Hb, String.eqb_refl, padded_refl.
Qed.

(** A blank piece may be added anywhere: in front, at the end, in
    between. *)
Lemma padded_insert a b l : blank b = true -> padded (a ++ l) (a ++ b :: l) = true.
Proof.
  intros Hb. induction a as [|x a IH]; simpl.
  - now apply padded_cons.
  - now rewrite String.eqb_refl.
Qed.


Lemma heading_line_step comment sc line :
  heading_line comment sc line =
    match Scan sc with
    | (false, s') => (line, s')
    | (true, s') =>
        if String.eqb (Text s') "" then heading_line comment s' (Text s')
        else if negb (String.eqb comment "") && HasPrefix (Text s') comment
        then heading_line comment s' (Text s')
        else (Text s', s')
    end.
Proof.
  funelim (heading_line comment sc line);
    match goal with E : Scan _ = _ |- _ => rewrite E end; reflexivity.
Qed.

(** The heading search stops at the first line it can use. *)
Lemma heading_line_usable comment sc s line :
  Scan sc = (true, s) -> usable comment (Text s) = true ->
  heading_line comment sc line = (Text s, s).
Proof.
  intros E U. unfold usable in U. apply andb_prop in U as [U1 U2].
  rewrite heading_line_step, E.
  apply negb_true_iff in U1, U2. now rewrite U1, U2.
Qed.

(** The heading, as a function of the line the search stopped at. *)
Lemma ReadHeading_line r line s :
  heading_line (Comment r) (scanner r) "" = (line, s) ->
  Err s = None ->
  ReadHeading r =
    let headings := fields (Comma r) line in
    let r1 := set_scanner r s in
    if negb (FieldsPerRecord r =? 0)
       && negb (Z.of_nat (length headings) =? FieldsPerRecord r)
    then ((None, Some ErrFieldCount), r1)
    else
      let r2 := set_lineRead
                  (set_FieldsPerRecord r1 (Z.of_nat (length headings))) true in
      match headings with
      | [] => ((None, None), r2)
      | _ => ((Some (map unquote headings), None), r2)
      end.
Proof. unfold ReadHeading. intros -> ->. reflexivity. Qed.

(** The part of C10 that holds: when the stream ends cleanly before any
    line is scanned, [ReadHeading] returns a nil heading and a nil error,
    sets [lineRead] and leaves the expected field count at zero, unless a
    count was set beforehand, in which case it returns [ErrFieldCount]. *)
Lemma ReadHeading_no_line r s :
  Scan (scanner r) = (false, s) -> Err s = None ->
  ReadHeading r =
    if FieldsPerRecord r =? 0
    then ((None, None),
          set_lineRead (set_FieldsPerRecord (set_scanner r s) 0) true)
    else ((None, Some ErrFieldCount), set_scanner r s).
Proof.
  intros E He.
  rewrite (@ReadHeading_line r "" s); [| now rewrite heading_line_step, E | auto].
  cbv zeta. rewrite fields_empty_line. cbn [length Z.of_nat].
  rewrite (Z.eqb_sym 0).
  destruct (FieldsPerRecord r =? 0); reflexivity.
Qed.


End ReaderFacts.

Section ReadAllFacts.
Context {float64 : Type} `{Strconv float64}.

Lemma read_rows_step r alldata :
  read_rows r alldata =
    match Read r with
    | ((_, Some err), r') => (inr err, r')
    | ((None, None), r') => (inl alldata, r')
    | ((Some data, None), r') => read_rows r' (alldata ++ [data])%list
    end.
Proof.
  funelim (read_rows r alldata);
    match goal with E : Read _ = _ |- _ => rewrite E end;
    try reflexivity.
  destruct o; reflexivity.
Qed.

(** A call of [Read] that returns no error returns nothing else than a row
    of the expected length or the end of the stream; a call on a reader that
    has seen a line keeps the expected field count. *)
Lemma Read_row_length r row e r' :
  Read r = ((Some row, e), r') ->
  e = None /\ Z.of_nat (length row) = FieldsPerRecord r' /\ lineRead r' = true.
Proof.
  intros R.
  destruct (Scan (scanner r)) as [[|] s] eqn:E.
  - pose proof (Read_line r E) as R'. cbv zeta in R'. rewrite R in R'.
    set (strs := fields (Comma r) (Text s)) in *.
    set (r1 := establish (set_scanner r s) (Z.of_nat (length strs))) in *.
    destruct (Z.eqb_spec (Z.of_nat (length strs)) (FieldsPerRecord r1)) as [E1|E1];
      simpl in R'; [|discriminate].
    destruct (first_bad strs 0) as [[[? ?] ?]|]; [discriminate|].
    injection R' as -> -> ->.
    unfold values. rewrite length_map. repeat split; auto.
    apply establish_lineRead.
  - rewrite (Read_end r E) in R. discriminate.
Qed.

Lemma Read_keeps_count r res r' :
  Read r = (res, r') ->
  lineRead r = true ->
  FieldsPerRecord r' = FieldsPerRecord r /\ lineRead r' = true.
Proof.
  intros R L.
  destruct (Scan (scanner r)) as [[|] s] eqn:E.
  - pose proof (Read_line r E) as R'. cbv zeta in R'. rewrite R in R'.
    set (strs := fields (Comma r) (Text s)) in *.
    assert (Hr : establish (set_scanner r s) (Z.of_nat (length strs))
                 = set_scanner r s).
    { unfold establish. simpl. now rewrite L. }
    rewrite Hr in R'.
    destruct (negb _) in R'; [injection R' as _ ->; auto|].
    destruct (first_bad strs 0) as [[[? ?] ?]|]; injection R' as _ ->; auto.
  - rewrite (Read_end r E) in R. injection R as _ <-. auto.
Qed.

Lemma Read_end_keeps_count r e r' :
  Read r = ((None, e), r') ->
  fst (Scan (scanner r)) = false ->
  FieldsPerRecord r' = FieldsPerRecord r /\ lineRead r' = lineRead r.
Proof.
  intros R E. destruct (Scan (scanner r)) as [b s] eqn:E'. simpl in E. subst b.
  rewrite (Read_end r E') in R. injection R as _ <-. auto.
Qed.

(** The rows a run of successful calls returns all have the length that is
    the expected field count at its end. *)
Lemma Reads_lengths r rows r' :
  Reads r rows r' ->
  rows <> [] ->
  lineRead r' = true /\
  Forall (fun row => Z.of_nat (length row) = FieldsPerRecord r') rows.
Proof.
  induction 1 as [r | r row r1 rows r' R Hrest IH]; [congruence|].
  intros _. apply Read_row_length in R as (_ & Hlen & L).
  destruct rows as [|row' rows].
  - inversion Hrest; subst. auto.
  - destruct IH as [L' HF]; [discriminate|]. split; auto.
    constructor; auto.
    assert (FieldsPerRecord r' = FieldsPerRecord r1) as ->; auto.
    clear - Hrest L. revert L.
    induction Hrest as [ra | ra rowa rb rowsa rc R Hrest IH]; auto.
    intros L. destruct (Read_keeps_count ra R L) as [<- L2]. auto.
Qed.

Lemma Reads_app r rows r1 row r2 :
  Reads r rows r1 -> Read r1 = ((Some row, None), r2) ->
  Reads r (rows ++ [row])%list r2.
Proof.
  induction 1; intros R; simpl.
  - econstructor; eauto. constructor.
  - econstructor; eauto.
Qed.

(** The loop of [ReadAll] ends, on the first error or at the end of the
    stream, after a run of successful calls. *)
Lemma read_rows_spec r alldata :
  exists rows r1 r2,
    Reads r rows r1 /\
    ((exists e, Read r1 = ((None, Some e), r2)
                /\ read_rows r alldata = (inr e, r2))
     \/ (Read r1 = ((None, None), r2)
         /\ read_rows r alldata = (inl (alldata ++ rows)%list, r2))).
Proof.
  remember (String.length (src (scanner r))) as n eqn:Hn.
  revert r alldata Hn.
  induction n as [n IH] using lt_wf_ind. intros r alldata ->.
  rewrite read_rows_step.
  destruct (Read r) as [[[row|] [e|]] r'] eqn:R.
  - apply Read_row_length in R as ([=] & _).
  - destruct (IH _ (Read_consumes _ R) r' (alldata ++ [row])%list eq_refl)
      as (rows & r1 & r2 & HR & Hres).
    exists (row :: rows), r1, r2. split; [econstructor; eauto|].
    destruct Hres as [(e & R1 & ->) | (R1 & ->)]; [left; eauto|right].
    split; auto. now rewrite <- app_assoc.
  - exists [], r, r'. split; [constructor|]. left; eauto.
  - exists [], r, r'. split; [constructor|]. right. rewrite app_nil_r. auto.
Qed.

(** Filling the matrix.  [n] rows of [c] cells; row [i] gets [record] from
    column [j] on: every [Set] lands inside the matrix. *)
Lemma set_row_spec (n c i : nat) (record : list float64) :
  forall (j : nat) (data : list float64),
  (i < n)%nat -> (j + length record <= c)%nat -> length data = (n * c)%nat ->
  set_row (mat64.mkDense (Z.of_nat n) (Z.of_nat c) (Z.of_nat c) data)
    (Z.of_nat i) (Z.of_nat j) record
  = Ret (mat64.mkDense (Z.of_nat n) (Z.of_nat c) (Z.of_nat c)
           (splice data (i * c + j) record)).
Proof.
  induction record as [|v record IH]; intros j data Hi Hj Hlen.
  - simpl. rewrite splice_nil; [reflexivity | nia].
  - simpl in Hj. cbn [set_row]. unfold mat64.Set_. cbn [mat64.Rows mat64.Cols
      mat64.Stride mat64.Data].
    replace ((0 <=? Z.of_nat i) && (Z.of_nat i <? Z.of_nat n)
             && (0 <=? Z.of_nat j) && (Z.of_nat j <? Z.of_nat c)) with true
      by (symmetry; rewrite !andb_true_iff, !Z.leb_le, !Z.ltb_lt; lia).
    replace (Z.to_nat (Z.of_nat i * Z.of_nat c + Z.of_nat j))
      with (i * c + j)%nat by lia.
    destruct (@splice_store _ data (i * c + j) v record) as (d & -> & Hd & Hs);
      [nia|].
    cbn [bind]. replace (Z.of_nat j + 1) with (Z.of_nat (S j)) by lia.
    rewrite IH by lia. rewrite <- Hs. do 3 f_equal. lia.
Qed.

Lemma set_rows_spec (n c : nat) (rows : list (list float64)) :
  forall (i : nat) (data : list float64),
  (i + length rows <= n)%nat ->
  Forall (fun row => length row = c) rows ->
  length data = (n * c)%nat ->
  set_rows (mat64.mkDense (Z.of_nat n) (Z.of_nat c) (Z.of_nat c) data)
    (Z.of_nat i) rows
  = Ret (mat64.mkDense (Z.of_nat n) (Z.of_nat c) (Z.of_nat c)
           (splice data (i * c) (concat rows))).
Proof.
  induction rows as [|row rows IH]; intros i data Hi HF Hlen.
  - simpl. rewrite splice_nil; [reflexivity | nia].
  - simpl in Hi. inversion HF as [|? ? Hrow HF']; subst.
    pose proof (length_concat_uniform HF') as Hc.
    cbn [set_rows]. change 0 with (Z.of_nat 0) at 1.
    rewrite (@set_row_spec n (length row) i row 0 data) by (simpl; lia).
    cbn [bind]. replace (Z.of_nat i + 1) with (Z.of_nat (S i)) by lia.
    rewrite IH; auto; [|lia | rewrite length_splice; nia].
    do 2 f_equal. simpl concat.
    rewrite Nat.add_0_r.
    replace (S i * length row)%nat with (i * length row + length row)%nat by lia.
    apply splice_splice. nia.
Qed.

(** The rows of a table are the rows it was made of. *)
Lemma RowView_table (c : nat) (rows : list (list float64)) (i : nat) row :
  Forall (fun row => length row = c) rows ->
  nth_error rows i = Some row ->
  mat64.RowView (table (Z.of_nat c) rows) (Z.of_nat i) = Ret row.
Proof.
  intros HF Hi. unfold mat64.RowView, table.
  cbn [mat64.Rows mat64.Cols mat64.Stride mat64.Data].
  assert (Hlt : (i < length rows)%nat)
    by (apply nth_error_Some; congruence).
  pose proof (@length_concat_uniform float64 c) as Hc.
  replace ((0 <=? Z.of_nat i) && (Z.of_nat i <? Z.of_nat (length rows))
           && (0 <=? Z.of_nat c)
           && (Z.of_nat i * Z.of_nat c + Z.of_nat c
               <=? Z.of_nat (length (concat rows)))) with true
    by (symmetry; rewrite !andb_true_iff, !Z.leb_le, !Z.ltb_lt, Hc by auto;
        nia).
  f_equal. rewrite Nat2Z.id.
  replace (Z.to_nat (Z.of_nat i * Z.of_nat c)) with (i * c)%nat by lia.
  clear Hlt. revert i Hi. induction HF as [|r rs Hr HF IH]; intros [|i] Hi;
    simpl in Hi; try discriminate.
  - injection Hi as ->. simpl. rewrite firstn_app, Hr, Nat.sub_diag.
    rewrite firstn_all2 by lia. simpl. apply app_nil_r.
  - simpl concat. replace (S i * c)%nat with (length r + i * c)%nat by (simpl; lia).
    rewrite skipn_app, skipn_all2 by lia. simpl.
    replace (length r + i * c - length r)%nat with (i * c)%nat by lia.
    apply IH; auto.
Qed.

(** What [ReadAll] returns: the error of the first call of [Read] that
    fails, or the table of all the rows read; it never panics. *)
Lemma ReadAll_spec r :
  exists rows r1 r2,
    Reads r rows r1 /\
    ((exists e, Read r1 = ((None, Some e), r2)
                /\ ReadAll r = Ret ((None, Some e), r2))
     \/ (Read r1 = ((None, None), r2)
         /\ ReadAll r
            = Ret ((Some (table (FieldsPerRecord r2) rows), None), r2)
         /\ Forall (fun row => Z.of_nat (length row) = FieldsPerRecord r2)
              rows)).
Proof.
  destruct (read_rows_spec r []) as (rows & r1 & r2 & HR & Hres).
  exists rows, r1, r2. split; auto. unfold ReadAll.
  destruct Hres as [(e & R1 & ->) | (R1 & ->)]; [left; eauto|right].
  split; auto. simpl app.
  assert (HF : Forall (fun row => Z.of_nat (length row) = FieldsPerRecord r2)
                 rows).
  { destruct rows as [|row rows]; [constructor|].
    destruct (Reads_lengths HR) as [L HF]; [discriminate|].
    destruct (Read_keeps_count r1 R1 L) as [-> _]. exact HF. }
  split; auto.
  unfold mat64.NewDense, table.
  destruct rows as [|row rows].
  - simpl. reflexivity.
  - set (rs := row :: rows) in *.
    assert (Hc : FieldsPerRecord r2 = Z.of_nat (length row))
      by (inversion HF; subst; auto).
    rewrite Hc in *.
    replace (Z.of_nat (length rs) * Z.of_nat (length row) <? 0) with false
      by (symmetry; apply Z.ltb_ge; lia).
    cbn [bind].
    rewrite (@set_rows_spec (length rs) (length row) rs 0).
    + cbn [bind]. change (0 * length row)%nat with 0%nat.
      rewrite splice_all; [reflexivity|].
      rewrite repeat_length.
      assert (Hl : Forall (fun x => length x = length row) rs).
      { eapply Forall_impl; [|exact HF]. simpl. intros; lia. }
      rewrite (length_concat_uniform Hl). lia.
    + lia.
    + eapply Forall_impl; [|exact HF]. simpl. intros; lia.
    + rewrite repeat_length. lia.
Qed.

Lemma Read_expected r res r' :
  Read r = (res, r') ->
  (fst (Scan (scanner r)) = false
   /\ FieldsPerRecord r' = FieldsPerRecord r /\ lineRead r' = lineRead r)
  \/ (fst (Scan (scanner r)) = true
      /\ FieldsPerRecord r' = expected r /\ lineRead r' = true).
Proof.
  intros R. unfold expected.
  destruct (Scan (scanner r)) as [[|] s] eqn:E; [right | left]; simpl.
  - pose proof (Read_line r E) as R'. cbv zeta in R'. rewrite R in R'.
    set (strs := fields (Comma r) (Text s)) in *.
    set (r1 := establish (set_scanner r s) (Z.of_nat (length strs))) in *.
    assert (r' = r1) as ->.
    { destruct (negb _) in R'; [congruence|].
      destruct (first_bad strs 0) as [[[? ?] ?]|]; congruence. }
    split; [reflexivity|]. unfold r1.
    rewrite establish_FieldsPerRecord, establish_lineRead. simpl.
    split; auto.
    destruct (lineRead r); simpl; auto.
    destruct (FieldsPerRecord r =? 0); reflexivity.
  - rewrite (Read_end r E) in R. injection R as _ <-. auto.
Qed.

Lemma expected_lineRead r : lineRead r = true -> expected r = FieldsPerRecord r.
Proof. unfold expected. now intros ->. Qed.

Lemma Reads_expected r rows r1 r2 :
  Reads r rows r1 -> Read r1 = ((None, None), r2) ->
  FieldsPerRecord r2 = expected r.
Proof.
  induction 1 as [r | r row ra rows r1 R Hrest IH]; intros Rend.
  - destruct (Read_cases r) as [(s & E & R') | [(s & rb & e & E & R' & _)
                                             | (s & rb & row & E & R' & _)]];
      rewrite R' in Rend; try discriminate.
    injection Rend as _ <-. unfold expected. rewrite E. simpl.
    destruct (lineRead r); simpl; auto.
    destruct (Z.eqb_spec (FieldsPerRecord r) 0); simpl; auto.
  - rewrite (IH Rend).
    destruct (Read_expected r R) as [(E & _) | (_ & <- & L)].
    + destruct (Read_cases r) as [(s & E' & R') | [(s & rb & e & E' & R' & _)
                                               | (s & rb & row' & E' & R' & _)]];
        rewrite E' in E; try discriminate.
      rewrite R' in R. discriminate.
    + now apply expected_lineRead.
Qed.

(** What a successful [ReadHeading] leaves in the reader. *)
Lemma ReadHeading_count r0 h r :
  ReadHeading r0 = ((h, None), r) ->
  lineRead r = true /\ FieldsPerRecord r = slice_len h.
Proof.
  unfold ReadHeading.
  destruct (heading_line (Comment r0) (scanner r0) "") as [line s].
  destruct (Err s); [discriminate|].
  change (Comma (set_scanner r0 s)) with (Comma r0).
  destruct (negb _ && negb _); [discriminate|].
  destruct (nonblank (Split line (Comma r0))) as [|x l] eqn:E.
  - intros [= <- <-]. auto.
  - intros [= <- <-]. simpl. rewrite length_map. auto.
Qed.

(** The run of successful calls up to the first that returns no row is
    unique. *)
Lemma Reads_det r rows1 : forall ra rows2 rb x y a b,
  Reads r rows1 ra -> Reads r rows2 rb ->
  Read ra = ((None, x), a) -> Read rb = ((None, y), b) ->
  rows1 = rows2 /\ ra = rb.
Proof.
  intros ra rows2 rb x y a b H1. revert rows2 rb y b.
  induction H1 as [r | r row r1 rows ra R Hrest IH];
    intros rows2 rb y b H2 Ra Rb;
    inversion H2 as [| ? row' r1' rows' ? R' Hrest']; subst; auto;
    try congruence.
  assert (row' = row /\ r1' = r1) as [-> ->] by (split; congruence).
  destruct (IH _ _ _ _ Hrest' Ra Rb) as [-> ->]. auto.
Qed.

Lemma ReadAll_Reads r rows r1 r2 :
  Reads r rows r1 -> Read r1 = ((None, None), r2) ->
  ReadAll r = Ret ((Some (table (FieldsPerRecord r2) rows), None), r2).
Proof.
  intros HR R1.
  destruct (ReadAll_spec r) as (rows0 & ra & rb & HR0 & Hres).
  destruct Hres as [(e & Ra & RA) | (Ra & RA & _)];
    destruct (Reads_det HR HR0 R1 Ra) as [<- <-]; [congruence|].
  assert (rb = r2) as -> by congruence. exact RA.
Qed.

(** C1. When [ReadAll] succeeds the table it returns is rectangular: each of
    its rows is a row that [Read] returned, of length the expected field
    count, which is the number of columns.  That count is the token count of
    the heading when [ReadHeading] was called before, the count configured
    when one was, and else the number of non-blank tokens of the first data
    line. *)
Theorem ReadAll_rectangular r mat e r' :
  ReadAll r = Ret ((Some mat, e), r') ->
  e = None
  /\ mat64.Cols mat = FieldsPerRecord r'
  /\ (exists rows,
        mat = table (FieldsPerRecord r') rows
        /\ Forall (fun row => Z.of_nat (length row) = FieldsPerRecord r') rows
        /\ forall i row, nth_error rows i = Some row ->
             mat64.RowView mat (Z.of_nat i) = Ret row)
  /\ FieldsPerRecord r' = expected r
  /\ (forall r0 h, ReadHeading r0 = ((h, None), r) ->
        FieldsPerRecord r' = slice_len h)
  /\ (FieldsPerRecord r <> 0 -> FieldsPerRecord r' = FieldsPerRecord r)
  /\ (FieldsPerRecord r = 0 -> lineRead r = false ->
      forall s, Scan (scanner r) = (true, s) ->
        FieldsPerRecord r'
        = Z.of_nat (length (fields (Comma r) (Text s)))).
Proof.
  intros RA.
  destruct (ReadAll_spec r) as (rows & r1 & r2 & HR & Hres).
  destruct Hres as [(e' & R1 & RA') | (R1 & RA' & HF)];
    rewrite RA' in RA; [discriminate|].
  injection RA as <- <- <-.
  pose proof (Reads_expected HR R1) as Hexp.
  split; [reflexivity|]. split; [reflexivity|]. split.
  { exists rows. repeat split; auto.
    intros i row Hi.
    assert (Hc : FieldsPerRecord r2 = Z.of_nat (length row)).
    { apply nth_error_In in Hi. rewrite Forall_forall in HF.
      symmetry. now apply HF. }
    rewrite Hc. apply RowView_table; auto.
    eapply Forall_impl; [|exact HF]. simpl. intros; lia. }
  split; [exact Hexp|]. rewrite Hexp. unfold expected. repeat split.
  - intros r0 h RH. apply ReadHeading_count in RH as [-> ->]. reflexivity.
  - intros Hne. destruct (Z.eqb_spec (FieldsPerRecord r) 0); [contradiction|].
    now rewrite orb_true_r.
  - intros -> -> s ->. reflexivity.
Qed.

(** C6. [ReadAll] calls [Read] until a call fails or returns the nil row:
    in the first case it returns the error of that call and no table; in the
    second the table whose rows are, in the order of the input, the rows of
    all the calls before.  It does one or the other for every reader. *)
Theorem ReadAll_first_error_or_all_rows r :
  exists rows r1 r2,
    Reads r rows r1 /\
    ((exists e, Read r1 = ((None, Some e), r2)
                /\ ReadAll r = Ret ((None, Some e), r2))
     \/ (Read r1 = ((None, None), r2)
         /\ exists mat,
             ReadAll r = Ret ((Some mat, None), r2)
             /\ mat64.Dims mat = (Z.of_nat (length rows), FieldsPerRecord r2)
             /\ forall i row, nth_error rows i = Some row ->
                  mat64.RowView mat (Z.of_nat i) = Ret row)).
Proof.
  destruct (ReadAll_spec r) as (rows & r1 & r2 & HR & Hres).
  exists rows, r1, r2. split; auto.
  destruct Hres as [(e' & R1 & RA) | (R1 & RA & HF)]; [left; eauto | right].
  split; auto.
  eexists; split; [exact RA|]. split; [reflexivity|].
  intros i row Hi.
  assert (Hc : FieldsPerRecord r2 = Z.of_nat (length row)).
  { apply nth_error_In in Hi. rewrite Forall_forall in HF.
    symmetry. now apply HF. }
  rewrite Hc. apply RowView_table; auto.
  eapply Forall_impl; [|exact HF]. simpl. intros; lia.
Qed.

End ReadAllFacts.


(** ** The buffered writer *)

Module bufio_facts.

Lemma io_Write_spec w p n e w' :
  io.Write w p = ((n, e), w') ->
  io.written w' = io.written w ++ Str.take (Z.to_nat n) p
  /\ 0 <= n <= len p
  /\ (e = None -> n = len p)
  /\ (io.room w = None -> e = None /\ io.room w' = None).
Proof.
  unfold io.Write. pose proof (len_nonneg p) as Hp.
  assert (Ht : Str.take (Z.to_nat (len p)) p = p).
  { unfold len. rewrite Nat2Z.id.
    rewrite <- (Str.app_nil_r p) at 2. apply Str.take_app. }
  destruct (io.room w) as [k|].
  - destruct (Z.leb_spec (len p) k).
    + intros [= <- <- <-]. simpl. rewrite Ht. repeat split; auto; try lia.
      discriminate.
    + intros [= <- <- <-]. simpl.
      replace (Z.to_nat (Z.max 0 k)) with (Z.to_nat k) by lia.
      repeat split; auto; try lia; discriminate.
  - intros [= <- <- <-]. simpl. rewrite Ht. repeat split; auto; lia.
Qed.

Lemma wrote_nothing b e : werr b = Some e -> wrote b "" (Some e) b.
Proof.
  intros He. split; auto. exists "", "". split; auto.
  now rewrite Str.app_nil_r.
Qed.

(** Two writes in a row. *)
Lemma wrote_app b s1 b1 s2 res b2 :
  wrote b s1 None b1 -> wrote b1 s2 res b2 -> wrote b (s1 ++ s2) res b2.
Proof.
  intros [H1 E1] H2. destruct res as [e|]; simpl in *.
  - destruct H2 as (He & p & q & -> & Ho). split; auto.
    exists (s1 ++ p), q. rewrite Ho, H1, !Str.app_assoc. auto.
  - destruct H2 as [Ho He]. rewrite Ho, H1, Str.app_assoc. split; congruence.
Qed.

(** A write that fails, whatever was to follow. *)
Lemma wrote_fail b s1 e b1 s2 :
  wrote b s1 (Some e) b1 -> wrote b (s1 ++ s2) (Some e) b1.
Proof.
  intros (He & p & q & -> & Ho). split; auto.
  exists p, (q ++ s2). rewrite Str.app_assoc. auto.
Qed.

Lemma Flush_wrote b res b' :
  Flush b = (res, b') ->
  wrote b "" res b' /\ (res = None -> buf b' = "")
  /\ (good b -> res = None /\ good b').
Proof.
  unfold Flush, good. destruct (werr b) as [e|] eqn:He.
  - intros [= <- <-]. split; [now apply wrote_nothing|].
    split; [discriminate|]. intros [[=] _].
  - destruct (Z.eqb_spec (len (buf b)) 0) as [E|E].
    + intros [= <- <-]. apply len_zero in E.
      repeat split; auto; try tauto. now rewrite Str.app_nil_r.
    + destruct (io.Write (wr b) (buf b)) as [[n e] wr'] eqn:W.
      apply io_Write_spec in W as (Hw & Hn & Hfull & Hgood).
      destruct e as [e|]; simpl.
      * rewrite andb_false_r. intros [= <- <-]. split; [|split].
        -- split; auto. exists "", "". split; auto. unfold out; simpl.
           rewrite Hw, Str.app_nil_r, Str.app_assoc, Str.take_drop. auto.
        -- discriminate.
        -- intros [_ Hr]. now destruct (Hgood Hr).
      * rewrite andb_true_r. specialize (Hfull eq_refl).
        destruct (Z.ltb_spec n (len (buf b))); [lia|].
        intros [= <- <-]. subst n. unfold wrote, out; cbn [buf wr werr].
        rewrite Hw. unfold len. rewrite Nat2Z.id.
        rewrite <- (Str.app_nil_r (buf b)) at 2. rewrite Str.take_app.
        rewrite !Str.app_nil_r. repeat split; auto.
        destruct H0 as [_ Hr]; now destruct (Hgood Hr).
Qed.

Lemma write_chunks_step b s nn :
  write_chunks b s nn =
    if (Available b <? len s) && is_nil (werr b) then
      let n := Z.to_nat (Available b) in
      let b1 := mkWriter (buf b ++ Str.take n s) (werr b) (wr b) in
      write_chunks (snd (Flush b1)) (Str.drop n s) (nn + Z.of_nat n)
    else (b, s, nn).
Proof.
  funelim (write_chunks b s nn);
    match goal with E : (_ && _) = _ |- _ => rewrite E end; reflexivity.
Qed.

Lemma write_chunks_spec b s nn b' s' nn' :
  write_chunks b s nn = (b', s', nn') ->
  (exists p, s = p ++ s' /\ out b' = out b ++ p) /\ (good b -> good b')
  /\ (werr b' = None -> werr b = None).
Proof.
  funelim (write_chunks b s nn).
  - intros W.
    match goal with IH : forall _ _ _, _ -> _ |- _ =>
      destruct (IH _ _ _ W) as ((p & Hs & Ho) & Hg & _) end.
    assert (He0 : werr b = None).
    { pose proof e as Hc. apply andb_prop in Hc as [_ Hnil].
      destruct (werr b); [discriminate|auto]. }
    clear W Heqcall.
    set (n := Z.to_nat (Available b)) in *.
    set (b1 := mkWriter (buf b ++ Str.take n s) (werr b) (wr b)) in *.
    destruct (Flush b1) as [res b2] eqn:F.
    apply Flush_wrote in F as (Hw & _ & Hgood). simpl in *.
    assert (Ho2 : out b2 = out b ++ Str.take n s).
    { assert (H1 : out b1 = out b ++ Str.take n s)
        by (unfold out, b1; simpl; now rewrite Str.app_assoc).
      destruct res; simpl in Hw.
      - destruct Hw as (_ & p0 & q0 & Hpq & Hout).
        destruct p0; [|discriminate]. now rewrite Hout, Str.app_nil_r.
      - destruct Hw as [Hout _]. now rewrite Hout, Str.app_nil_r. }
    split.
    + exists (Str.take n s ++ p). split.
      * rewrite Str.app_assoc, <- Hs. symmetry. apply Str.take_drop.
      * rewrite Ho, Ho2, Str.app_assoc. reflexivity.
    + split; auto. intros G. apply Hg. apply Hgood. exact G.
  - intros [= <- <- <-]. split; [|split; auto].
    exists "". split; auto. now rewrite Str.app_nil_r.
Qed.

Lemma WriteString_wrote b s n res b' :
  WriteString b s = ((n, res), b') ->
  wrote b s res b' /\ (good b -> res = None /\ good b').
Proof.
  unfold WriteString.
  destruct (write_chunks b s 0) as [[b1 s1] n1] eqn:W.
  apply write_chunks_spec in W as ((p & -> & Ho) & Hg & He0).
  destruct (werr b1) as [e|] eqn:He.
  - intros [= <- <- <-]. split.
    + split; auto. eauto.
    + intros G. destruct (Hg G) as [G1 _]. congruence.
  - intros [= <- <- <-]. split.
    + split; [|now rewrite He0]. unfold out in *. simpl.
      rewrite <- Str.app_assoc, Ho, Str.app_assoc. reflexivity.
    + intros G. destruct (Hg G) as [_ G2]. split; auto. split; auto.
Qed.

Lemma WriteByte_wrote b c res b' :
  WriteByte b c = (res, b') ->
  wrote b (String c "") res b' /\ (good b -> res = None /\ good b').
Proof.
  unfold WriteByte. destruct (werr b) as [e|] eqn:He.
  - intros [= <- <-]. split.
    + apply (@wrote_fail b "" e b (String c "")). now apply wrote_nothing.
    + intros [G _]. congruence.
  - assert (Hput : forall b0, werr b0 = None ->
       wrote b0 (String c "") None
         (mkWriter (buf b0 ++ String c "") None (wr b0))).
    { intros b0 H0. split; auto. unfold out; simpl.
      now rewrite Str.app_assoc. }
    destruct (Available b <=? 0).
    + destruct (Flush b) as [[e|] b1] eqn:F;
        apply Flush_wrote in F as (Hw & _ & Hgood).
      * intros [= <- <-]. destruct Hw as [He1 Hw]. rewrite He1. split.
        -- apply (@wrote_fail b "" e b1 (String c "")). split; auto.
        -- intros G. destruct (Hgood G) as [[=] _].
      * intros [= <- <-]. destruct Hw as [Ho He1]. rewrite He1, He. split.
        -- apply (@wrote_app b "" b1 (String c "") None); [split; congruence|].
           apply Hput. congruence.
        -- intros G. destruct (Hgood G) as [_ [_ G1]]. split; auto.
           split; auto.
    + intros [= <- <-]. split; [now apply Hput|].
      intros [_ G]. split; auto. split; auto.
Qed.

End bufio_facts.

(** ** The writer *)

Section WriterFacts.
Context {float64 : Type} `{Strconv float64}.
Import bufio_facts.

(** [w -> w']: an operation of the writer went from [w] to [w'], asked to
    write [s], with result [res]; the configuration is left alone. *)
Definition wrote_w (w : Writer.Writer) (s : string) (res : option error)
  (w' : Writer.Writer) : Prop :=
  wrote (Writer.w w) s res (Writer.w w')
  /\ w' = set_w w (Writer.w w')
  /\ (good (Writer.w w) -> res = None /\ good (Writer.w w')).

Lemma set_w_id w : set_w w (Writer.w w) = w.
Proof. destruct w; reflexivity. Qed.

Lemma wrote_w_refl w : wrote_w w "" None w.
Proof.
  split; [|split].
  - split; auto. now rewrite Str.app_nil_r.
  - now rewrite set_w_id.
  - auto.
Qed.

Lemma wrote_w_app w s1 w1 s2 res w2 :
  wrote_w w s1 None w1 -> wrote_w w1 s2 res w2 ->
  wrote_w w (s1 ++ s2) res w2.
Proof.
  intros (H1 & C1 & G1) (H2 & C2 & G2). split; [|split].
  - eapply wrote_app; eauto.
  - rewrite C2, C1. reflexivity.
  - intros G. apply G2. now apply G1.
Qed.

Lemma wrote_w_fail w s1 e w1 s2 :
  wrote_w w s1 (Some e) w1 -> wrote_w w (s1 ++ s2) (Some e) w1.
Proof.
  intros (H1 & C1 & G1). split; [|split]; auto. now apply wrote_fail.
Qed.

Lemma put_wrote w s res w' : put w s = (res, w') -> wrote_w w s res w'.
Proof.
  unfold put. destruct (WriteString (Writer.w w) s) as [[n e] b] eqn:W.
  intros [= <- <-]. apply WriteString_wrote in W as [Hw Hg].
  split; [|split]; auto.
Qed.

Lemma end_line_wrote w res w' :
  end_line w = (res, w') -> wrote_w w (eol w) res w'.
Proof.
  unfold end_line, eol. destruct (Writer.UseCRLF w).
  - apply put_wrote.
  - destruct (WriteByte (Writer.w w) LF) as [e b] eqn:W.
    intros [= <- <-]. apply WriteByte_wrote in W as [Hw Hg].
    split; [|split]; auto.
Qed.

Lemma write_fields_wrote strs : forall w n res w',
  0 <= n ->
  write_fields w n strs = (res, w') ->
  wrote_w w (seps (n =? 0) (Writer.Comma w) strs) res w'.
Proof.
  induction strs as [|str rest IH]; intros w n res w' Hn; simpl.
  - intros [= <- <-]. apply wrote_w_refl.
  - assert (Hsep : exists res1 w1,
        (if n >? 0 then put w (Writer.Comma w) else (None, w)) = (res1, w1)
        /\ wrote_w w (if n =? 0 then "" else Writer.Comma w) res1 w1).
    { destruct (Z.eqb_spec n 0) as [->|Hne].
      - simpl. do 2 eexists. split; eauto. apply wrote_w_refl.
      - replace (n >? 0) with true by (symmetry; apply Z.gtb_lt; lia).
        destruct (put w (Writer.Comma w)) as [res1 w1] eqn:P.
        do 2 eexists. split; eauto. now apply put_wrote. }
    destruct Hsep as (res1 & w1 & -> & H1).
    destruct res1 as [e|].
    + intros [= <- <-]. now apply wrote_w_fail.
    + destruct (put w1 str) as [res2 w2] eqn:P. apply put_wrote in P.
      assert (HC : Writer.Comma w2 = Writer.Comma w).
      { destruct P as (_ & -> & _). destruct H1 as (_ & -> & _). reflexivity. }
      destruct res2 as [e|].
      * intros [= <- <-]. eapply wrote_w_app; [exact H1|].
        now apply wrote_w_fail.
      * intros W. eapply wrote_w_app; [exact H1|].
        eapply wrote_w_app; [exact P|].
        apply IH in W; [|lia].
        replace (n + 1 =? 0) with false in W by (symmetry; apply Z.eqb_neq; lia).
        now rewrite HC in W.
Qed.

Lemma seps_Join comma strs : seps true comma strs = Join strs comma.
Proof.
  unfold Join. destruct strs as [|x strs]; [reflexivity|]. simpl.
  revert x. induction strs as [|y strs IH]; intros x; simpl.
  - apply Str.app_nil_r.
  - now rewrite IH.
Qed.

Lemma heading_fields_eq h : forall w n,
  heading_fields w n h = write_fields w n (map (heading_token w) h).
Proof.
  induction h as [|field rest IH]; intros w n;
    cbn [heading_fields write_fields map]; auto.
  destruct (if n >? 0 then put w (Writer.Comma w) else (None, w))
    as [[e|] w1] eqn:P; auto.
  assert (C1 : w1 = set_w w (Writer.w w1)).
  { destruct (n >? 0); [apply put_wrote in P as (_ & C & _); exact C|].
    injection P as <-. now rewrite set_w_id. }
  assert (HT : forall f, heading_token w1 f = heading_token w f)
    by (intros f; rewrite C1; reflexivity).
  fold (heading_token w1 field). rewrite HT.
  destruct (put w1 (heading_token w field)) as [[e|] w2] eqn:P2; auto.
  rewrite IH. f_equal. apply map_ext. intros f.
  apply put_wrote in P2 as (_ & -> & _). rewrite <- (HT f). reflexivity.
Qed.

Lemma record_fields_eq record : forall w n,
  record_fields w n record = write_fields w n (map (value_token w) record).
Proof.
  induction record as [|field rest IH]; intros w n;
    cbn [record_fields write_fields map]; auto.
  destruct (if n >? 0 then put w (Writer.Comma w) else (None, w))
    as [[e|] w1] eqn:P; auto.
  assert (C1 : w1 = set_w w (Writer.w w1)).
  { destruct (n >? 0); [apply put_wrote in P as (_ & C & _); exact C|].
    injection P as <-. now rewrite set_w_id. }
  assert (HT : forall f, value_token w1 f = value_token w f)
    by (intros f; rewrite C1; reflexivity).
  fold (value_token w1 field). rewrite HT.
  destruct (put w1 (value_token w field)) as [[e|] w2] eqn:P2; auto.
  rewrite IH. f_equal. apply map_ext. intros f.
  apply put_wrote in P2 as (_ & -> & _). rewrite <- (HT f). reflexivity.
Qed.

Lemma wrote_w_config w s res w' :
  wrote_w w s res w' ->
  Writer.Comma w' = Writer.Comma w /\ eol w' = eol w
  /\ (forall row, row_text w' row = row_text w row).
Proof. intros (_ & -> & _). repeat split. Qed.

Lemma WriteHeading_wrote w heading res w' :
  WriteHeading w heading = (res, w') ->
  wrote_w w (heading_text w heading) res w'.
Proof.
  unfold WriteHeading, heading_text. rewrite heading_fields_eq.
  destruct (write_fields w 0 _) as [[e|] w1] eqn:W;
    apply write_fields_wrote in W; try lia;
    change (0 =? 0) with true in W; rewrite seps_Join in W.
  - intros [= <- <-]. now apply wrote_w_fail.
  - intros E. apply end_line_wrote in E.
    destruct (wrote_w_config W) as (_ & -> & _) in E.
    eapply wrote_w_app; eauto.
Qed.

Lemma Write_wrote w record res w' :
  Write w record = (res, w') -> wrote_w w (row_text w record) res w'.
Proof.
  unfold Write, row_text. rewrite record_fields_eq.
  destruct (write_fields w 0 _) as [[e|] w1] eqn:W;
    apply write_fields_wrote in W; try lia;
    change (0 =? 0) with true in W; rewrite seps_Join in W.
  - intros [= <- <-]. now apply wrote_w_fail.
  - intros E. apply end_line_wrote in E.
    destruct (wrote_w_config W) as (_ & -> & _) in E.
    eapply wrote_w_app; eauto.
Qed.

Lemma write_rows_wrote data k : forall w i rows,
  rows_from k data i = Ret rows ->
  exists res w',
    write_rows k w data i = Ret (res, w')
    /\ wrote_w w (rows_text w rows) res w'.
Proof.
  induction k as [|k IH]; intros w i rows; simpl.
  - intros [= <-]. exists None, w. split; auto. apply wrote_w_refl.
  - destruct (mat64.RowView data i) as [row|]; simpl; [|discriminate].
    destruct (rows_from k data (i + 1)) as [rest|] eqn:R; simpl; [|discriminate].
    intros [= <-].
    destruct (Write w row) as [[e|] w1] eqn:W; apply Write_wrote in W.
    + exists (Some e), w1. split; auto. unfold rows_text. simpl.
      now apply wrote_w_fail.
    + destruct (IH w1 (i + 1) rest R) as (res & w2 & -> & W2).
      exists res, w2. split; auto. unfold rows_text. simpl.
      eapply wrote_w_app; eauto.
      unfold rows_text in W2.
      erewrite map_ext; [exact W2|].
      intros r. symmetry. apply (wrote_w_config W).
Qed.



(** Once flushed, all that was taken is in the sink. *)
Lemma flushed_written b s b' :
  wrote b s None b' -> buf b' = "" -> io.written (wr b') = out b ++ s.
Proof.
  intros [Ho _] Hb. rewrite <- Ho. unfold out. now rewrite Hb, Str.app_nil_r.
Qed.



End WriterFacts.

(** ** Reading back what was written *)

Lemma IndexByte_app x y c :
  IndexByte x c = None ->
  IndexByte (x ++ y) c
  = match IndexByte y c with
    | Some i => Some (len x + i)
    | None => None
    end.
Proof.
  induction x as [|d x IH]; cbn [IndexByte String.append].
  - intros _. destruct (IndexByte y c); auto.
  - destruct (Ascii.eqb d c); [discriminate|].
    destruct (IndexByte x c); [discriminate|]. intros _.
    rewrite IH by auto. destruct (IndexByte y c); auto.
    f_equal. unfold len. cbn [String.length]. lia.
Qed.

Lemma last_app_byte x c : Str.last (x ++ String c "") = Some c.
Proof.
  induction x as [|d x IH]; simpl; auto.
  rewrite IH. destruct (x ++ String c ""); [discriminate IH | reflexivity].
Qed.

Lemma init_app_byte x c : Str.init (x ++ String c "") = x.
Proof.
  induction x as [|d x IH]; simpl; auto.
  rewrite IH. destruct x; reflexivity.
Qed.

Lemma dropCR_app_CR x : dropCR (x ++ String CR "") = x.
Proof.
  unfold dropCR. rewrite last_app_byte, Ascii.eqb_refl. apply init_app_byte.
Qed.

Lemma take_len_app x y : Str.take (Z.to_nat (len x)) (x ++ y) = x.
Proof. unfold len. rewrite Nat2Z.id. apply Str.take_app. Qed.

Lemma drop_len_app x y : Str.drop (Z.to_nat (len x)) (x ++ y) = y.
Proof. unfold len. rewrite Nat2Z.id. apply Str.drop_app. Qed.

(** The scanner returns a line written by the writer as it is, with either
    line ending, and goes on with what follows. *)
Lemma Scan_line line (crlf_ending : bool) rest e tok :
  line_ok line = true ->
  Scan (mkScanner (line ++ (if crlf_ending then crlf else nl) ++ rest)
          e tok None)
  = (true, mkScanner rest e line None).
Proof.
  unfold line_ok. intros [[Hnl Hlen]%andb_prop Hcr]%andb_prop.
  apply Z.ltb_lt in Hlen. apply String.eqb_eq in Hcr.
  assert (Hi : IndexByte line LF = None)
    by (destruct (IndexByte line LF); [discriminate | auto]).
  unfold Scan. cbn [err src srcEnd].
  destruct crlf_ending.
  - replace (line ++ crlf ++ rest)
      with ((line ++ String CR "") ++ String LF rest)
      by (rewrite Str.app_assoc; reflexivity).
    rewrite IndexByte_app
      by (rewrite IndexByte_app by auto; reflexivity).
    cbn [IndexByte]. rewrite Ascii.eqb_refl, Z.add_0_r.
    replace (len (line ++ String CR "") <? MaxScanTokenSize) with true
      by (symmetry; apply Z.ltb_lt; unfold len in *;
          rewrite Str.length_app; simpl; lia).
    rewrite take_len_app, dropCR_app_CR.
    replace (Z.to_nat (len (line ++ String CR "") + 1))
      with (String.length ((line ++ String CR "") ++ String LF ""))
      by (unfold len; rewrite !Str.length_app; simpl; lia).
    replace ((line ++ String CR "") ++ String LF rest)
      with (((line ++ String CR "") ++ String LF "") ++ rest)
      by (rewrite !Str.app_assoc; reflexivity).
    rewrite Str.drop_app. reflexivity.
  - change (line ++ nl ++ rest) with (line ++ String LF rest).
    rewrite IndexByte_app by auto.
    cbn [IndexByte]. rewrite Ascii.eqb_refl, Z.add_0_r.
    replace (len line <? MaxScanTokenSize) with true
      by (symmetry; apply Z.ltb_lt; lia).
    rewrite take_len_app, Hcr.
    replace (Z.to_nat (len line + 1))
      with (String.length (line ++ String LF ""))
      by (unfold len; rewrite !Str.length_app; simpl; lia).
    replace (line ++ String LF rest) with ((line ++ String LF "") ++ rest)
      by (rewrite !Str.app_assoc; reflexivity).
    rewrite Str.drop_app. reflexivity.
Qed.

Lemma Scan_end e tok :
  Scan (mkScanner "" e tok None) = (false, mkScanner "" e "" e).
Proof. reflexivity. Qed.

Section RoundTrip.
Context {float64 : Type} `{Strconv float64}.

Lemma nonblank_tok_ok comma toks :
  forallb (tok_ok comma) toks = true -> nonblank toks = toks.
Proof.
  induction toks as [|t toks IH]; simpl; auto.
  intros [Ht Hr]%andb_prop. unfold tok_ok in Ht.
  apply andb_prop in Ht as [[Htrim Hne]%andb_prop _].
  apply String.eqb_eq in Htrim. rewrite Htrim.
  destruct t; [discriminate|]. simpl. now rewrite IH.
Qed.

Lemma fields_Join comma toks :
  toks <> [] -> forallb (tok_ok comma) toks = true ->
  fields comma (Join toks comma) = toks.
Proof.
  intros Hne Hok. unfold fields.
  assert (Hw : forallb (whole comma) toks = true).
  { clear Hne. induction toks as [|t toks IH]; simpl in *; auto.
    apply andb_prop in Hok as [Ht Hr]. unfold tok_ok in Ht.
    apply andb_prop in Ht as [_ ->]. auto. }
  assert (Hsep : comma <> "").
  { destruct toks as [|t toks]; [congruence|]. cbn [forallb] in Hok, Hw.
    apply andb_prop in Hok as [Ht _]. apply andb_prop in Hw as [Hwt _].
    unfold tok_ok in Ht. apply andb_prop in Ht as [[_ Hn]%andb_prop _].
    destruct t as [|c t]; [discriminate|].
    exact (@whole_sep_nonempty comma c t Hwt). }
  rewrite Split_Join by auto. now apply (@nonblank_tok_ok comma).
Qed.


(** [Read] on the line of a row that was written. *)
Lemma Read_written r w record (ending : bool) rest tok :
  row_ok w (length record) record = true ->
  record <> [] ->
  Comma r = Writer.Comma w ->
  lineRead r = true ->
  FieldsPerRecord r = Z.of_nat (length record) ->
  scanner r
  = mkScanner (Join (map (value_token w) record) (Writer.Comma w)
               ++ (if ending then crlf else nl) ++ rest) None tok None ->
  exists tok',
    Read r = ((Some (read_back w record), None),
              set_scanner r (mkScanner rest None tok' None)).
Proof.
  unfold row_ok. cbv zeta.
  set (toks := map (value_token w) record).
  set (line := Join toks (Writer.Comma w)).
  intros [[[_ Htok]%andb_prop Hline]%andb_prop Hbad]%andb_prop
    Hne HC HL Hfpr Hsc.
  assert (E : Scan (scanner r) = (true, mkScanner rest None line None))
    by (rewrite Hsc; now apply Scan_line).
  assert (Hn : toks <> [])
    by (unfold toks; destruct record; [congruence | discriminate]).
  exists line. rewrite (Read_line r E). cbv zeta.
  change (Text (mkScanner rest None line None)) with line.
  assert (Hf : fields (Writer.Comma w) line = toks)
    by (unfold line; now apply fields_Join).
  rewrite HC, !Hf.
  assert (Hl : length toks = length record) by (unfold toks; apply length_map).
  assert (He : establish (set_scanner r (mkScanner rest None line None))
                 (Z.of_nat (length toks))
               = set_scanner r (mkScanner rest None line None)).
  { unfold establish. cbn [lineRead set_scanner]. now rewrite HL. }
  rewrite He. cbn [FieldsPerRecord set_scanner].
  rewrite Hl, Hfpr, Z.eqb_refl. cbn [negb].
  destruct (first_bad toks 0); [discriminate|]. reflexivity.
Qed.

(** Reading the lines of the rows, then the end of the stream. *)
Lemma Reads_written w : forall rows r tok n,
  forallb (row_ok w (S n)) rows = true ->
  Comma r = Writer.Comma w ->
  lineRead r = true ->
  FieldsPerRecord r = Z.of_nat (S n) ->
  scanner r = mkScanner (rows_text w rows) None tok None ->
  exists r1 tok',
    Reads r (map (read_back w) rows) r1
    /\ r1 = set_scanner r (mkScanner "" None tok' None).
Proof.
  induction rows as [|row rows IH]; intros r tok n Hok HC HL Hfpr Hsc.
  - exists r, tok. split; [constructor|].
    destruct r; simpl in *. now rewrite Hsc.
  - simpl in Hok. apply andb_prop in Hok as [Hrow Hrows].
    assert (Hlen : length row = S n).
    { unfold row_ok in Hrow. cbv zeta in Hrow.
      apply andb_prop in Hrow as [[[Hl _]%andb_prop _]%andb_prop _].
      now apply Nat.eqb_eq in Hl. }
    rewrite <- Hlen in Hrow.
    assert (Hsc' : scanner r
       = mkScanner (Join (map (value_token w) row) (Writer.Comma w)
                    ++ (if Writer.UseCRLF w then crlf else nl)
                    ++ rows_text w rows) None tok None).
    { rewrite Hsc. unfold rows_text. cbn [map Str.cat fold_right].
      unfold row_text at 1, eol. now rewrite Str.app_assoc. }
    destruct (@Read_written r w row (Writer.UseCRLF w) (rows_text w rows) tok
                Hrow) as (tok1 & R); auto;
      [destruct row; [discriminate | discriminate] | lia |].
    set (r1 := set_scanner r (mkScanner (rows_text w rows) None tok1 None)) in *.
    destruct (IH r1 tok1 n Hrows) as (r2 & tok2 & HR & ->); auto.
    exists (set_scanner r1 (mkScanner "" None tok2 None)), tok2.
    split; [econstructor; eauto | reflexivity].
Qed.


End RoundTrip.

(** ** The heading *)

Lemma heading_line_skip comment line (ending : bool) rest e tok l0 :
  line_ok line = true -> usable comment line = false ->
  heading_line comment
    (mkScanner (line ++ (if ending then crlf else nl) ++ rest) e tok None) l0
  = heading_line comment (mkScanner rest e line None) line.
Proof.
  intros Hl Hu.
  rewrite heading_line_step, (Scan_line line ending rest e tok Hl).
  cbn [Text token]. unfold usable in Hu.
  destruct (String.eqb line ""); [reflexivity|].
  cbn [negb andb] in Hu. apply negb_false_iff in Hu. now rewrite Hu.
Qed.

Lemma heading_line_skips comment skipped : forall rest e tok l0,
  Forall (fun l => line_ok (fst l) = true /\ usable comment (fst l) = false)
    skipped ->
  exists tok' l',
    heading_line comment (mkScanner (lines_text skipped ++ rest) e tok None) l0
    = heading_line comment (mkScanner rest e tok' None) l'.
Proof.
  induction skipped as [|[line ending] skipped IH]; intros rest e tok l0 HF.
  - exists tok, l0. reflexivity.
  - inversion HF as [|? ? [Hl Hu] HF']; subst. cbn [fst] in *.
    cbn [lines_text]. rewrite !Str.app_assoc.
    rewrite heading_line_skip by auto.
    apply IH. exact HF'.
Qed.

Lemma ReadHeading_at r skipped line (ending : bool) rest e tok :
  Forall (fun l => line_ok (fst l) = true /\ usable (Comment r) (fst l) = false)
    skipped ->
  line_ok line = true -> usable (Comment r) line = true ->
  scanner r
  = mkScanner (lines_text skipped ++ line ++ (if ending then crlf else nl) ++ rest)
      e tok None ->
  heading_line (Comment r) (scanner r) ""
  = (line, mkScanner rest e line None).
Proof.
  intros HF Hl Hu ->.
  destruct (@heading_line_skips (Comment r) skipped
              (line ++ (if ending then crlf else nl) ++ rest) e tok "" HF)
    as (tok' & l' & ->).
  apply (@heading_line_usable (Comment r) _ (mkScanner rest e line None) l');
    [now apply Scan_line | exact Hu].
Qed.

(** X1. Empty lines and lines that start with the comment prefix are
    skipped before the heading: [ReadHeading] gives the same result, and
    leaves the same reader, as on the stream without them.  It stops after
    the first line it can use, and when the expected field count is not
    set, or is the number of tokens of that line, it returns these tokens in
    their order, each without one quotation mark at each end. *)
Theorem ReadHeading_skips r skipped line (ending : bool) rest e tok :
  Forall (fun l => line_ok (fst l) = true /\ usable (Comment r) (fst l) = false)
    skipped ->
  line_ok line = true -> usable (Comment r) line = true ->
  scanner r
  = mkScanner (lines_text skipped ++ line ++ (if ending then crlf else nl) ++ rest)
      e tok None ->
  let toks := fields (Comma r) line in
  ReadHeading r
  = ReadHeading (set_scanner r
      (mkScanner (line ++ (if ending then crlf else nl) ++ rest) e tok None))
  /\ scanner (snd (ReadHeading r)) = mkScanner rest e line None
  /\ (FieldsPerRecord r = 0 \/ FieldsPerRecord r = Z.of_nat (length toks) ->
      fst (ReadHeading r)
      = (match toks with [] => None | _ => Some (map unquote toks) end, None)).
Proof.
  intros HF Hl Hu Hsc toks.
  pose proof (@ReadHeading_at r skipped line ending rest e tok HF Hl Hu Hsc)
    as E.
  set (r0 := set_scanner r
         (mkScanner (line ++ (if ending then crlf else nl) ++ rest) e tok None)).
  assert (E0 : heading_line (Comment r0) (scanner r0) ""
               = (line, mkScanner rest e line None)).
  { apply (@ReadHeading_at r0 [] line ending rest e tok); auto. }
  rewrite (@ReadHeading_line r line _ E eq_refl).
  rewrite (@ReadHeading_line r0 line _ E0 eq_refl).
  cbv zeta. cbn [Comma FieldsPerRecord set_scanner r0]. fold toks.
  split; [|split].
  - destruct (negb _ && negb _); [reflexivity|].
    destruct toks; reflexivity.
  - destruct (negb _ && negb _); [reflexivity|].
    destruct toks; reflexivity.
  - intros Hc.
    replace (negb (FieldsPerRecord r =? 0)
             && negb (Z.of_nat (length toks) =? FieldsPerRecord r)) with false.
    + destruct toks; reflexivity.
    + symmetry. destruct Hc as [-> | ->]; [reflexivity|].
      rewrite Z.eqb_refl. apply andb_false_r.
Qed.

(** ** Where errors come from *)

Lemma Scan_errors s b s' :
  Scan s = (b, s') ->
  srcEnd s' = srcEnd s /\ forall e, err s' = Some e -> stream_error s e.
Proof.
  unfold Scan, stream_error.
  destruct (err s) as [e0|] eqn:E0.
  - destruct (Str.is_empty (src s)).
    + intros [= <- <-]. cbn [srcEnd err]. split; auto.
    + destruct (IndexByte (src s) LF); intros [= <- <-]; cbn [srcEnd err];
        split; auto.
  - destruct (IndexByte (src s) LF) as [i|].
    + destruct (i <? MaxScanTokenSize); intros [= <- <-]; cbn [srcEnd err];
        split; auto; try discriminate.
      intros e [= <-]. auto.
    + destruct (MaxScanTokenSize <=? len (src s)).
      * intros [= <- <-]. cbn [srcEnd err]. split; auto. intros e [= <-]. auto.
      * destruct (Str.is_empty (src s)); intros [= <- <-]; cbn [srcEnd err];
          split; auto.
Qed.

Lemma stream_error_Scan s b s' e :
  Scan s = (b, s') -> stream_error s' e -> stream_error s e.
Proof.
  intros E [He | [He | He]]; apply Scan_errors in E as [Hs Hx].
  - left; auto.
  - right; left; congruence.
  - now apply Hx.
Qed.

Lemma heading_line_errors comment s line :
  forall l s', heading_line comment s line = (l, s') ->
  forall e, stream_error s' e -> stream_error s e.
Proof.
  funelim (heading_line comment s line); intros l s2 HL e0 He.
  - (* token *)
    revert HL.
    destruct (String.eqb (Text s') "").
    + intros HL. eapply stream_error_Scan; eauto.
    + destruct (negb (String.eqb comment "") && HasPrefix (Text s') comment).
      * intros HL. eapply stream_error_Scan; eauto.
      * intros [= <- <-]. eapply stream_error_Scan; eauto.
  - injection HL as <- <-. eapply stream_error_Scan; eauto.
Qed.

(** X2. An error of [ReadHeading] comes with a nil heading and leaves the
    reader as it was, but for the lines scanned.  It is [ErrFieldCount],
    which happens only when an expected field count was set beforehand, or
    it is the error of the scanner: a line too long, or the error of the
    stream. *)
Theorem ReadHeading_errors r h e r' :
  ReadHeading r = ((h, Some e), r') ->
  h = None
  /\ r' = set_scanner r (scanner r')
  /\ ((e = ErrFieldCount /\ FieldsPerRecord r <> 0 /\ Err (scanner r') = None)
      \/ (Err (scanner r') = Some e /\ stream_error (scanner r) e)).
Proof.
  unfold ReadHeading.
  destruct (heading_line (Comment r) (scanner r) "") as [line s] eqn:HL.
  destruct (Err s) as [e0|] eqn:He.
  - intros [= <- <- <-]. cbn [scanner set_scanner].
    split; auto. split; auto. right. split; auto.
    eapply heading_line_errors; eauto. right; right. exact He.
  - cbn [Comma FieldsPerRecord set_scanner].
    destruct (Z.eqb_spec (FieldsPerRecord r) 0) as [E0|E0]; cbn [negb andb].
    + destruct (nonblank _); discriminate.
    + destruct (negb _).
      * intros [= <- <- <-]. cbn [scanner set_scanner]. auto 10.
      * destruct (nonblank _); discriminate.
Qed.

Section ReaderMore.
Context {float64 : Type} `{Strconv float64}.

Lemma first_bad_error strs : forall i j str e,
  first_bad strs i = Some (j, str, e) ->
  In str strs /\ exists k, e = NumError "ParseFloat" str k.
Proof.
  induction strs as [|x strs IH]; simpl; intros i j str e; [discriminate|].
  destruct (ParseFloat x 64) as [v [e'|]] eqn:P; simpl.
  - intros [= <- <- <-]. split; auto. eapply ParseFloat_error; eauto.
  - intros Hb. destruct (IH _ _ _ _ Hb). auto.
Qed.

Lemma first_bad_numbers strs : forall i,
  first_bad strs i = None <-> numbers strs.
Proof.
  unfold numbers.
  induction strs as [|x strs IH]; simpl; intros i.
  - split; auto.
  - destruct (snd (ParseFloat x 64)) as [e|] eqn:P.
    + split; [discriminate|]. intros HF. inversion HF; congruence.
    + rewrite IH. split; intros HF; [constructor; auto | now inversion HF].
Qed.

(** One call of [Read], by the answer of the scanner. *)
Lemma Read_step r :
  match Scan (scanner r) with
  | (false, s) => Read r = ((None, Err s), set_scanner r s)
  | (true, s) =>
      let strs := fields (Comma r) (Text s) in
      let r' := establish (set_scanner r s) (Z.of_nat (length strs)) in
      Read r =
        if negb (Z.of_nat (length strs) =? FieldsPerRecord r')
        then ((None, Some ErrFieldCount), r')
        else match first_bad strs 0 with
             | Some (_, _, e) => ((None, Some e), r')
             | None => ((Some (values strs), None), r')
             end
  end.
Proof.
  destruct (Scan (scanner r)) as [[|] s] eqn:E.
  - now apply Read_line.
  - now apply Read_end.
Qed.

Lemma Read_scanner r res r' :
  Read r = (res, r') -> scanner r' = snd (Scan (scanner r)).
Proof.
  pose proof (Read_step r) as R.
  destruct (Scan (scanner r)) as [[|] s]; cbv zeta in R; rewrite R; cbn [snd].
  - destruct (negb _).
    + intros [= _ <-]. apply establish_scanner.
    + destruct (first_bad _ 0) as [[[? ?] ?]|]; intros [= _ <-];
        apply establish_scanner.
  - intros [= _ <-]. reflexivity.
Qed.

Lemma Read_error_cases r row e r' :
  Read r = ((row, Some e), r') ->
  row = None
  /\ (e = ErrFieldCount
      \/ (exists str k,
            In str (fields (Comma r) (Text (scanner r')))
            /\ e = NumError "ParseFloat" str k)
      \/ stream_error (scanner r) e).
Proof.
  intros R. pose proof (Read_scanner _ R) as Hs.
  pose proof (Read_step r) as R'.
  destruct (Scan (scanner r)) as [[|] s] eqn:E; cbv zeta in R';
    rewrite R in R'; cbn [snd] in Hs.
  - destruct (negb _) in R'.
    + injection R' as -> -> _. auto.
    + destruct (first_bad _ 0) as [[[j str] e']|] eqn:B; [|discriminate].
      injection R' as -> -> _. split; auto. right; left.
      apply first_bad_error in B as [Hin Hk]. rewrite Hs.
      destruct Hk as [k ->]. eauto.
  - injection R' as -> He _. split; auto. right; right.
    symmetry in He. eapply stream_error_Scan; eauto. right; right. exact He.
Qed.

Lemma Reads_stream_error r rows r1 :
  Reads r rows r1 ->
  forall e, stream_error (scanner r1) e -> stream_error (scanner r) e.
Proof.
  induction 1 as [r | r row ra rows r1 R Hrest IH]; auto.
  intros e He. apply IH in He. apply Read_scanner in R.
  destruct (Scan (scanner r)) as [b s] eqn:E. cbn [snd] in R.
  rewrite R in He. eapply stream_error_Scan; eauto.
Qed.

(** The error [ReadAll] returns is that of the first call that fails. *)
Lemma ReadAll_Reads_error r rows r1 e r2 :
  Reads r rows r1 -> Read r1 = ((None, Some e), r2) ->
  ReadAll r = Ret ((None, Some e), r2).
Proof.
  intros HR R1.
  destruct (ReadAll_spec r) as (rows0 & ra & rb & HR0 & Hres).
  destruct Hres as [(e' & Ra & RA) | (Ra & RA & _)];
    destruct (Reads_det HR HR0 R1 Ra) as [<- <-]; congruence.
Qed.

(** X3. The errors of [Read] and of [ReadAll]: [ErrFieldCount], the
    [NumError] of [ParseFloat] for a token of the line, or the error of the
    scanner (a line too long, the error of the stream).  No row and no table
    comes with an error, and [ErrTrailingComma] is returned only if the
    stream itself fails with it. *)
Theorem Read_ReadAll_errors r e :
  (forall row r', Read r = ((row, Some e), r') ->
     row = None
     /\ (e = ErrFieldCount
         \/ (exists str k, e = NumError "ParseFloat" str k)
         \/ stream_error (scanner r) e))
  /\ (forall mat r', ReadAll r = Ret ((mat, Some e), r') ->
     mat = None
     /\ (e = ErrFieldCount
         \/ (exists str k, e = NumError "ParseFloat" str k)
         \/ stream_error (scanner r) e)).
Proof.
  split.
  - intros row r' R. apply Read_error_cases in R as [-> [He | [He | He]]];
      split; auto.
    destruct He as (str & k & _ & ->). eauto.
  - intros mat r' RA.
    destruct (ReadAll_spec r) as (rows & r1 & r2 & HR & Hres).
    destruct Hres as [(e' & R1 & RA') | (R1 & RA' & _)];
      rewrite RA' in RA; [|discriminate].
    injection RA as <- <- <-. split; auto.
    apply Read_error_cases in R1 as [_ [He | [He | He]]]; auto.
    + destruct He as (str & k & _ & ->). eauto.
    + right; right. eapply Reads_stream_error; eauto.
Qed.

(** X4. [Read] returns a row exactly when the scanner has a line, the line
    has the expected number of tokens and [ParseFloat] accepts each of
    them; the row then holds the values of the tokens in their order, and
    the reader has moved by that line. *)
Theorem Read_row r row r' :
  Read r = ((Some row, None), r') <->
  exists s,
    Scan (scanner r) = (true, s)
    /\ r' = establish (set_scanner r s)
              (Z.of_nat (length (fields (Comma r) (Text s))))
    /\ Z.of_nat (length (fields (Comma r) (Text s))) = FieldsPerRecord r'
    /\ numbers (fields (Comma r) (Text s))
    /\ row = values (fields (Comma r) (Text s)).
Proof.
  pose proof (Read_step r) as R.
  destruct (Scan (scanner r)) as [[|] s] eqn:E; cbv zeta in R; rewrite R.
  - set (strs := fields (Comma r) (Text s)).
    set (r1 := establish (set_scanner r s) (Z.of_nat (length strs))).
    split.
    + destruct (Z.eqb_spec (Z.of_nat (length strs)) (FieldsPerRecord r1))
        as [Ec|Ec]; cbn [negb]; [|discriminate].
      destruct (first_bad strs 0) as [[[? ?] ?]|] eqn:B; [discriminate|].
      intros [= <- <-]. exists s. repeat split; auto.
      now apply (first_bad_numbers strs 0).
    + intros (s0 & [= <-] & -> & Ec & Hn & ->). fold strs r1 in Ec |- *.
      rewrite (proj2 (Z.eqb_eq _ _) Ec). cbn [negb].
      apply (first_bad_numbers strs 0) in Hn. now rewrite Hn.
  - split; [discriminate|]. intros (s0 & [=] & _).
Qed.

(** X5. A call of [Read] that gets a line from the scanner consumes that
    one line whatever it returns: a row, [ErrFieldCount] or the error of a
    token.  On the first line it sets [lineRead] and, if the expected field
    count is not set, sets it to the number of tokens of the line, even
    when the line is then refused; on later lines it changes nothing else
    in the reader, so that the next call goes on with the next line. *)
Theorem Read_consumes_one_line r s res r' :
  Scan (scanner r) = (true, s) ->
  Read r = (res, r') ->
  r' = establish (set_scanner r s)
         (Z.of_nat (length (fields (Comma r) (Text s))))
  /\ scanner r' = s /\ lineRead r' = true
  /\ (lineRead r = true -> r' = set_scanner r s)
  /\ (lineRead r = false -> FieldsPerRecord r = 0 ->
      FieldsPerRecord r' = Z.of_nat (length (fields (Comma r) (Text s)))).
Proof.
  intros E R. pose proof (Read_line r E) as R'. cbv zeta in R'.
  rewrite R in R'.
  set (strs := fields (Comma r) (Text s)) in *.
  set (r1 := establish (set_scanner r s) (Z.of_nat (length strs))) in *.
  assert (r' = r1) as ->.
  { destruct (negb _) in R'; [congruence|].
    destruct (first_bad strs 0) as [[[? ?] ?]|]; congruence. }
  split; auto. split; [apply establish_scanner|].
  split; [apply establish_lineRead|]. split.
  - intros L. unfold r1, establish. cbn [lineRead set_scanner]. now rewrite L.
  - intros L F. unfold r1. rewrite establish_FieldsPerRecord.
    cbn [lineRead FieldsPerRecord set_scanner]. now rewrite L, F.
Qed.


Lemma Read_end_again r r' :
  Read r = ((None, None), r') -> Read r' = ((None, None), r').
Proof.
  intros R.
  destruct (Read_cases r) as [(s & E & R') | [(s & r1 & e & E & R' & _)
                                           | (s & r1 & row & E & R' & _)]];
    rewrite R' in R; try discriminate.
  injection R as He <-.
  rewrite (@Read_end _ _ (set_scanner r s) s).
  - rewrite He. reflexivity.
  - cbn [scanner set_scanner]. now apply Scan_end_stable with (s0 := scanner r).
Qed.

(** X7. After [ReadAll] has returned a table the reader is at the end of
    the stream: a second [ReadAll] returns, again without error, the table
    with no row and the same number of columns, and leaves the reader as it
    is.  [ReadAll] returns a nil table only with an error. *)
Theorem ReadAll_again r mat r' :
  ReadAll r = Ret ((Some mat, None), r') ->
  ReadAll r' = Ret ((Some (table (mat64.Cols mat) []), None), r').
Proof.
  intros RA.
  destruct (ReadAll_spec r) as (rows & r1 & r2 & HR & Hres).
  destruct Hres as [(e' & R1 & RA') | (R1 & RA' & _)];
    rewrite RA' in RA; [discriminate|].
  injection RA as <- <-. cbn [table mat64.Cols].
  apply Read_end_again in R1.
  exact (ReadAll_Reads (Reads_nil r2) R1).
Qed.

(** X8. A line of 64 KiB or more cannot be read: when the scanner has not
    failed and no line feed is among the first 65536 bytes of what is left
    of the stream, [Read] and [ReadAll] return [bufio.ErrTooLong], and so
    does [ReadHeading]. *)
Theorem Read_line_too_long r :
  err (scanner r) = None ->
  MaxScanTokenSize <= len (src (scanner r)) ->
  (forall i, IndexByte (src (scanner r)) LF = Some i -> MaxScanTokenSize <= i) ->
  fst (Read r) = (None, Some ErrTooLong)
  /\ (exists r', ReadAll r = Ret ((None, Some ErrTooLong), r'))
  /\ fst (ReadHeading r) = (None, Some ErrTooLong).
Proof.
  intros He Hlen Hi.
  assert (E : Scan (scanner r)
              = (false, mkScanner (Str.head (src (scanner r)) MaxScanTokenSize)
                          (srcEnd (scanner r)) "" (Some ErrTooLong))).
  { unfold Scan. rewrite He.
    destruct (IndexByte (src (scanner r)) LF) as [i|] eqn:I.
    - specialize (Hi i eq_refl).
      destruct (Z.ltb_spec i MaxScanTokenSize); [lia | reflexivity].
    - destruct (Z.leb_spec MaxScanTokenSize (len (src (scanner r))));
        [reflexivity | lia]. }
  pose proof (Read_end r E) as R. split; [now rewrite R|]. split.
  - eexists. exact (ReadAll_Reads_error (Reads_nil r) R).
  - unfold ReadHeading. rewrite heading_line_step, E. reflexivity.
Qed.

End ReaderMore.

(** ** The buffer of the writer *)

Section BufferFacts.
Import bufio_facts.

Lemma last_app x y : y <> "" -> Str.last (x ++ y) = Str.last y.
Proof.
  intros Hy. induction x as [|c x IH]; [reflexivity|].
  cbn [String.append Str.last]. rewrite IH.
  destruct (x ++ y) eqn:E; [|reflexivity].
  destruct x; [simpl in E; congruence | discriminate].
Qed.

Lemma drop_nonempty n s :
  (n < String.length s)%nat -> Str.drop n s <> "".
Proof.
  intros Hn Hd. apply (f_equal String.length) in Hd.
  rewrite Str.length_drop in Hd. simpl in Hd. lia.
Qed.

(** The loop of [WriteString] leaves something to put in the buffer. *)
Lemma write_chunks_rest b s nn b' s' nn' :
  write_chunks b s nn = (b', s', nn') -> s <> "" -> s' <> "".
Proof.
  funelim (write_chunks b s nn).
  - intros W Hs.
    match goal with IH : forall _ _ _, _ -> _ |- _ => apply (IH _ _ _ W) end.
    pose proof e as Hc. apply andb_prop in Hc as [Hlt _].
    apply Z.ltb_lt in Hlt. apply drop_nonempty.
    assert (0 < len s) by (destruct s; [congruence | unfold len; simpl; lia]).
    unfold len in *. lia.
  - intros [= <- <- <-]. auto.
Qed.

Lemma WriteString_last b s n b' :
  WriteString b s = ((n, None), b') -> s <> "" ->
  Str.last (buf b') = Str.last s.
Proof.
  unfold WriteString.
  destruct (write_chunks b s 0) as [[b1 s1] n1] eqn:W.
  pose proof (@write_chunks_rest _ _ _ _ _ _ W) as Hr.
  apply write_chunks_spec in W as ((p & Hs & _) & _).
  destruct (werr b1); [discriminate|].
  intros [= <- <-] Hne. cbn [buf].
  rewrite last_app by auto. rewrite Hs. now rewrite last_app by auto.
Qed.

Lemma WriteByte_last b c b' :
  WriteByte b c = (None, b') -> Str.last (buf b') = Some c.
Proof.
  unfold WriteByte. destruct (werr b); [discriminate|].
  destruct (Available b <=? 0).
  - destruct (Flush b) as [[e|] b1] eqn:F.
    + apply Flush_wrote in F as ([He _] & _). rewrite He. discriminate.
    + intros [= <-]. cbn [buf]. now rewrite last_app by discriminate.
  - intros [= <-]. cbn [buf]. now rewrite last_app by discriminate.
Qed.

(** What fits in the buffer goes there and nowhere else. *)
Lemma WriteString_fits b s :
  werr b = None -> len (buf b) + len s <= defaultBufSize ->
  WriteString b s = ((len s, None), mkWriter (buf b ++ s) None (wr b)).
Proof.
  intros He Hl. unfold WriteString. rewrite write_chunks_step.
  replace (Available b <? len s) with false
    by (symmetry; apply Z.ltb_ge; unfold Available; lia).
  cbn [andb]. now rewrite He.
Qed.

Lemma WriteByte_fits b c :
  werr b = None -> len (buf b) + 1 <= defaultBufSize ->
  WriteByte b c = (None, mkWriter (buf b ++ String c "") None (wr b)).
Proof.
  intros He Hl. unfold WriteByte. rewrite He.
  replace (Available b <=? 0) with false
    by (symmetry; apply Z.leb_gt; unfold Available; lia).
  reflexivity.
Qed.

Lemma WriteString_failed b s e :
  werr b = Some e -> WriteString b s = ((0, Some e), b).
Proof.
  intros He. unfold WriteString. rewrite write_chunks_step, He.
  rewrite andb_false_r. now rewrite He.
Qed.

Lemma len_app x y : len (x ++ y) = len x + len y.
Proof. unfold len. rewrite Str.length_app. lia. Qed.

End BufferFacts.

(** ** The writer, line by line *)

Section WriterMore.
Context {float64 : Type} `{Strconv float64}.
Import bufio_facts.

Lemma put_failed w s e :
  werr (Writer.w w) = Some e -> put w s = (Some e, w).
Proof.
  intros He. unfold put. rewrite (WriteString_failed _ s He).
  now rewrite set_w_id.
Qed.

Lemma end_line_failed w e :
  werr (Writer.w w) = Some e -> end_line w = (Some e, w).
Proof.
  intros He. unfold end_line. destruct (Writer.UseCRLF w).
  - now apply put_failed.
  - unfold WriteByte. rewrite He. now rewrite set_w_id.
Qed.

Lemma WriteHeading_failed w heading e :
  werr (Writer.w w) = Some e -> WriteHeading w heading = (Some e, w).
Proof.
  intros He. unfold WriteHeading. destruct heading as [|field rest].
  - cbn [heading_fields]. now apply end_line_failed.
  - cbn [heading_fields]. change (0 >? 0) with false. cbv iota.
    now rewrite (put_failed w _ He).
Qed.

Lemma Write_failed w record e :
  werr (Writer.w w) = Some e -> Write w record = (Some e, w).
Proof.
  intros He. unfold Write. destruct record as [|field rest].
  - cbn [record_fields]. now apply end_line_failed.
  - cbn [record_fields]. change (0 >? 0) with false. cbv iota.
    now rewrite (put_failed w _ He).
Qed.

(** X9. Once a write has failed the writer stays in its error state:
    [Write], [WriteHeading] and [WriteAll] return the same error at once,
    write nothing, and leave the writer as it is. *)
Theorem write_after_error w e :
  werr (Writer.w w) = Some e ->
  (forall record, Write w record = (Some e, w))
  /\ (forall heading, WriteHeading w heading = (Some e, w))
  /\ (forall heading data, WriteAll w (Some heading) data = Ret (Some e, w))
  /\ (forall data rows, rows_of data = Ret rows ->
        WriteAll w None data = Ret (Some e, w)).
Proof.
  intros He. split; [|split; [|split]].
  - intros record. now apply Write_failed.
  - intros heading. now apply WriteHeading_failed.
  - intros heading data. unfold WriteAll.
    now rewrite (WriteHeading_failed w heading He).
  - intros data rows Hrows. unfold WriteAll, rows_of, mat64.Dims in *.
    destruct (Z.to_nat (mat64.Rows data)) as [|k].
    + cbn [write_rows bind]. unfold Flush. rewrite He. now rewrite set_w_id.
    + cbn [rows_from write_rows] in *.
      destruct (mat64.RowView data 0) as [row|]; [|discriminate].
      cbn [bind]. now rewrite (Write_failed w row He).
Qed.

Lemma end_line_last w w' :
  end_line w = (None, w') -> Str.last (buf (Writer.w w')) = Some LF.
Proof.
  unfold end_line, put. destruct (Writer.UseCRLF w).
  - destruct (WriteString (Writer.w w) crlf) as [[n e] b] eqn:W.
    intros [= -> <-]. cbn [Writer.w set_w].
    now rewrite (WriteString_last _ W) by discriminate.
  - destruct (WriteByte (Writer.w w) LF) as [e b] eqn:W.
    intros [= -> <-]. cbn [Writer.w set_w]. now apply WriteByte_last in W.
Qed.

(** X10. [Write] and [WriteHeading] do not flush: when they return without
    error, the end of the line they wrote (its line feed at least) is still
    in the buffer and not in the sink.  Only [WriteAll] ends with a flush. *)
Theorem line_end_stays_buffered w w' :
  (forall record, Write w record = (None, w') ->
     Str.last (buf (Writer.w w')) = Some LF)
  /\ (forall heading, WriteHeading w heading = (None, w') ->
     Str.last (buf (Writer.w w')) = Some LF).
Proof.
  split.
  - intros record. unfold Write.
    destruct (record_fields w 0 record) as [[e|] w1]; [discriminate|].
    apply end_line_last.
  - intros heading. unfold WriteHeading.
    destruct (heading_fields w 0 heading) as [[e|] w1]; [discriminate|].
    apply end_line_last.
Qed.

Lemma put_fits w s :
  werr (Writer.w w) = None ->
  len (buf (Writer.w w)) + len s <= defaultBufSize ->
  put w s = (None, set_w w (mkWriter (buf (Writer.w w) ++ s) None
                              (wr (Writer.w w)))).
Proof.
  intros He Hl. unfold put. now rewrite WriteString_fits.
Qed.

Lemma end_line_fits w :
  werr (Writer.w w) = None ->
  len (buf (Writer.w w)) + len (eol w) <= defaultBufSize ->
  end_line w = (None, set_w w (mkWriter (buf (Writer.w w) ++ eol w) None
                                 (wr (Writer.w w)))).
Proof.
  intros He Hl. unfold end_line, eol in *. destruct (Writer.UseCRLF w).
  - now apply put_fits.
  - now rewrite WriteByte_fits.
Qed.

Lemma write_fields_fits strs : forall w n,
  0 <= n -> werr (Writer.w w) = None ->
  len (buf (Writer.w w)) + len (seps (n =? 0) (Writer.Comma w) strs)
    <= defaultBufSize ->
  write_fields w n strs
  = (None, set_w w (mkWriter
                      (buf (Writer.w w) ++ seps (n =? 0) (Writer.Comma w) strs)
                      None (wr (Writer.w w)))).
Proof.
  induction strs as [|str rest IH]; intros w n Hn He Hl.
  - cbn [write_fields seps]. rewrite Str.app_nil_r.
    destruct w as [c u q f [bf er sink]]; cbn in *. now rewrite He.
  - cbn [write_fields seps] in *. rewrite !len_app in Hl.
    pose proof (len_nonneg str). pose proof (len_nonneg (Writer.Comma w)).
    pose proof (len_nonneg (seps false (Writer.Comma w) rest)).
    set (sep := if n =? 0 then "" else Writer.Comma w) in *.
    assert (Hsep : (if n >? 0 then put w (Writer.Comma w) else (None, w))
       = (None, set_w w (mkWriter (buf (Writer.w w) ++ sep) None
                           (wr (Writer.w w))))).
    { unfold sep. destruct (Z.eqb_spec n 0) as [->|Hne].
      - cbn. rewrite Str.app_nil_r.
        destruct w as [c u q f [bf er sink]]; cbn in *. now rewrite He.
      - replace (n >? 0) with true by (symmetry; apply Z.gtb_lt; lia).
        apply put_fits; auto. unfold sep in Hl.
        destruct (Z.eqb_spec n 0); [lia|]. lia. }
    rewrite Hsep.
    set (w1 := set_w w _).
    assert (Hl1 : len (buf (Writer.w w1)) = len (buf (Writer.w w)) + len sep)
      by (unfold w1; cbn [Writer.w set_w buf]; apply len_app).
    rewrite (@put_fits w1 str) by (auto; lia).
    set (w2 := set_w w1 _).
    rewrite (IH w2 (n + 1)); [| lia | reflexivity |].
    + replace (n + 1 =? 0) with false by (symmetry; apply Z.eqb_neq; lia).
      unfold w2, w1. cbn [Writer.w set_w buf wr Writer.Comma].
      rewrite !Str.app_assoc. reflexivity.
    + replace (n + 1 =? 0) with false by (symmetry; apply Z.eqb_neq; lia).
      unfold w2, w1. cbn [Writer.w set_w buf wr Writer.Comma].
      rewrite !len_app. lia.
Qed.

Lemma line_fits w toks :
  werr (Writer.w w) = None ->
  len (buf (Writer.w w)) + len (Join toks (Writer.Comma w) ++ eol w)
    <= defaultBufSize ->
  match write_fields w 0 toks with
  | (Some e, w1) => (Some e, w1)
  | (None, w1) => end_line w1
  end
  = (None, set_w w (mkWriter
                      (buf (Writer.w w) ++ Join toks (Writer.Comma w) ++ eol w)
                      None (wr (Writer.w w)))).
Proof.
  intros He Hl. rewrite len_app in Hl. pose proof (len_nonneg (eol w)).
  rewrite write_fields_fits; auto; try lia;
    change (0 =? 0) with true; rewrite seps_Join; [|lia].
  rewrite end_line_fits; cbn [Writer.w set_w buf wr werr]; auto.
  - rewrite Str.app_assoc. reflexivity.
  - rewrite len_app. unfold eol in *. cbn [Writer.UseCRLF set_w]. lia.
Qed.

(** X11. A line that fits in the room left in the buffer is put there and
    nowhere else: [Write] and [WriteHeading] return nil and do not touch the
    sink, whatever state the sink is in.  An error of the sink shows later,
    when the buffer is flushed. *)
Theorem Write_fits_in_buffer w :
  werr (Writer.w w) = None ->
  (forall record,
     len (buf (Writer.w w)) + len (row_text w record) <= defaultBufSize ->
     Write w record
     = (None, set_w w (mkWriter (buf (Writer.w w) ++ row_text w record)
                         None (wr (Writer.w w)))))
  /\ (forall heading,
     len (buf (Writer.w w)) + len (heading_text w heading) <= defaultBufSize ->
     WriteHeading w heading
     = (None, set_w w (mkWriter (buf (Writer.w w) ++ heading_text w heading)
                         None (wr (Writer.w w))))).
Proof.
  intros He. split.
  - intros record Hl. unfold Write, row_text in *. rewrite record_fields_eq.
    now apply line_fits.
  - intros heading Hl. unfold WriteHeading, heading_text in *.
    rewrite heading_fields_eq. now apply line_fits.
Qed.

End WriterMore.

(** ** Quotation marks *)

Lemma HasSuffix_app x q : HasSuffix (x ++ q) q = true.
Proof.
  unfold HasSuffix. rewrite Str.length_app.
  replace (String.length x + String.length q - String.length q)%nat
    with (String.length x) by lia.
  rewrite Str.drop_app, String.eqb_refl.
  apply andb_true_iff. split; auto. apply Nat.leb_le. lia.
Qed.

Lemma TrimSuffix_app x q : TrimSuffix (x ++ q) q = x.
Proof.
  unfold TrimSuffix. rewrite HasSuffix_app, Str.length_app.
  replace (String.length x + String.length q - String.length q)%nat
    with (String.length x) by lia.
  apply Str.take_app.
Qed.

Lemma TrimPrefix_app q x : TrimPrefix (q ++ x) q = x.
Proof. unfold TrimPrefix. rewrite HasPrefix_app. apply Str.drop_app. Qed.

Lemma unquote_quoted s : unquote (quote ++ s ++ quote) = s.
Proof.
  unfold unquote. rewrite <- Str.app_assoc, TrimSuffix_app.
  apply TrimPrefix_app.
Qed.

Lemma HasPrefix_length s p :
  HasPrefix s p = true -> (String.length p <= String.length s)%nat.
Proof.
  revert s; induction p as [|c p IH]; intros [|d s]; simpl;
    try discriminate; try lia.
  intros [_ Hp]%andb_prop. apply IH in Hp. lia.
Qed.

Lemma length_TrimPrefix s p :
  String.length (TrimPrefix s p)
  = if HasPrefix s p then (String.length s - String.length p)%nat
    else String.length s.
Proof.
  unfold TrimPrefix. destruct (HasPrefix s p); auto. apply Str.length_drop.
Qed.

Lemma length_TrimSuffix s p :
  String.length (TrimSuffix s p)
  = if HasSuffix s p then (String.length s - String.length p)%nat
    else String.length s.
Proof.
  unfold TrimSuffix. destruct (HasSuffix s p) eqn:E; auto.
  rewrite Str.length_take. lia.
Qed.

Lemma unquote_plain s :
  unquote s = s <-> HasPrefix s quote = false /\ HasSuffix s quote = false.
Proof.
  unfold unquote. split.
  - intros Hu. apply (f_equal String.length) in Hu.
    rewrite length_TrimPrefix, length_TrimSuffix in Hu.
    destruct (HasSuffix s quote) eqn:Es.
    + exfalso. unfold HasSuffix in Es. apply andb_prop in Es as [Hl _].
      apply Nat.leb_le in Hl. change (String.length quote) with 1%nat in *.
      destruct (HasPrefix _ quote); lia.
    + assert (Ht : TrimSuffix s quote = s) by (unfold TrimSuffix; now rewrite Es).
      rewrite Ht in Hu. destruct (HasPrefix s quote) eqn:Ep; auto.
      apply HasPrefix_length in Ep. change (String.length quote) with 1%nat in *.
      lia.
  - intros [Hp Hs]. unfold TrimSuffix. rewrite Hs.
    unfold TrimPrefix. now rewrite Hp.
Qed.

Section WriterReader.
Context {float64 : Type} `{Strconv float64}.
Import bufio_facts.

(** X12. The loop that removes the quotation marks takes at most one off
    each end of a name.  So a name written with [QuoteHeading] comes back
    from its token as it was, whatever it holds, and a name written as it
    is comes back as it was exactly when it neither starts nor ends with a
    quotation mark. *)
Theorem unquote_heading_token w name :
  unquote (heading_token w name) = name <->
  Writer.QuoteHeading w = true
  \/ (HasPrefix name quote = false /\ HasSuffix name quote = false).
Proof.
  unfold heading_token. destruct (Writer.QuoteHeading w).
  - rewrite unquote_quoted. tauto.
  - rewrite unquote_plain. split; auto. intros [[=]|]; auto.
Qed.

(** What [WriteAll] writes; the configuration of the writer is left
    alone. *)
Lemma WriteAll_wrote_w w headings data rows :
  rows_of data = Ret rows ->
  exists res w',
    WriteAll w headings data = Ret (res, w')
    /\ wrote_w w (text w headings rows) res w'
    /\ (res = None -> buf (Writer.w w') = "").
Proof.
  intros Hrows. unfold WriteAll, text.
  assert (Hh : exists res0 w0,
     match headings with
     | Some h => WriteHeading w h
     | None => (None, w)
     end = (res0, w0)
     /\ wrote_w w match headings with
                  | Some h => heading_text w h
                  | None => ""
                  end res0 w0).
  { destruct headings as [h|].
    - destruct (WriteHeading w h) as [res0 w0] eqn:W.
      exists res0, w0. split; auto. now apply WriteHeading_wrote.
    - exists None, w. split; auto. apply wrote_w_refl. }
  destruct Hh as (res0 & w0 & -> & W0).
  destruct res0 as [e|].
  - exists (Some e), w0. split; auto. split; [|discriminate].
    now apply wrote_w_fail.
  - unfold mat64.Dims. unfold rows_of in Hrows.
    destruct (write_rows_wrote data _ w0 _ Hrows) as (res1 & w1 & -> & W1).
    cbn [bind].
    assert (W : wrote_w w
                  (match headings with
                   | Some h => heading_text w h
                   | None => ""
                   end ++ rows_text w rows) res1 w1).
    { eapply wrote_w_app; [exact W0|].
      unfold rows_text in *. erewrite map_ext; [exact W1|].
      intros r. symmetry. apply (wrote_w_config W0). }
    destruct res1 as [e|].
    + exists (Some e), w1. split; auto. split; [auto | discriminate].
    + destruct (Flush (Writer.w w1)) as [res2 b2] eqn:F.
      exists res2, (set_w w1 b2). split; auto.
      apply Flush_wrote in F as (Hw & Hbuf & Hgood).
      cbn [Writer.w set_w]. split; auto.
      rewrite <- (Str.app_nil_r (_ ++ rows_text w rows)).
      eapply wrote_w_app; [exact W|].
      split; [exact Hw|]. split; [reflexivity | exact Hgood].
Qed.

Lemma cat_app (a b : list string) :
  Str.cat (a ++ b)%list = Str.cat a ++ Str.cat b.
Proof.
  induction a as [|x a IH]; cbn [Str.cat fold_right List.app]; auto.
  fold (Str.cat (a ++ b)%list). fold (Str.cat a).
  now rewrite IH, Str.app_assoc.
Qed.

Lemma text_app w headings rows1 rows2 :
  text w headings (rows1 ++ rows2)%list
  = text w headings rows1 ++ text w None rows2.
Proof.
  unfold text, rows_text. rewrite map_app, cat_app.
  cbn [String.append]. now rewrite Str.app_assoc.
Qed.

(** X13. A table may be written in batches: a call of [WriteAll] with the
    heading and the first rows, then a call with a nil heading and the rows
    that follow, leave in the sink what one call with all the rows
    writes, and an empty buffer. *)
Theorem WriteAll_in_batches w headings d1 rows1 d2 rows2 w1 w2 :
  rows_of d1 = Ret rows1 -> rows_of d2 = Ret rows2 ->
  WriteAll w headings d1 = Ret (None, w1) ->
  WriteAll w1 None d2 = Ret (None, w2) ->
  io.written (wr (Writer.w w2))
  = out (Writer.w w) ++ text w headings (rows1 ++ rows2)
  /\ buf (Writer.w w2) = "".
Proof.
  intros H1 H2 WA1 WA2.
  destruct (@WriteAll_wrote_w w headings d1 rows1 H1)
    as (res1 & w1' & WA1' & W1 & B1).
  rewrite WA1 in WA1'. injection WA1' as <- <-.
  destruct (@WriteAll_wrote_w w1 None d2 rows2 H2)
    as (res2 & w2' & WA2' & W2 & B2).
  rewrite WA2 in WA2'. injection WA2' as <- <-.
  split; [|now apply B2].
  assert (Ht : text w1 None rows2 = text w None rows2).
  { unfold text, rows_text. do 2 f_equal. apply map_ext.
    intros row. apply (wrote_w_config W1). }
  rewrite Ht in W2. pose proof (wrote_w_app W1 W2) as (W & _).
  rewrite text_app. apply flushed_written; auto.
Qed.

(** [Read] on the first line of a stream without heading, when it is the
    line of a row that was written. *)
Lemma Read_written_first r w record (ending : bool) rest tok :
  row_ok w (length record) record = true ->
  record <> [] ->
  Comma r = Writer.Comma w ->
  lineRead r = false ->
  FieldsPerRecord r = 0 \/ FieldsPerRecord r = Z.of_nat (length record) ->
  scanner r
  = mkScanner (Join (map (value_token w) record) (Writer.Comma w)
               ++ (if ending then crlf else nl) ++ rest) None tok None ->
  exists tok',
    Read r = ((Some (read_back w record), None),
              mkReader (Comma r) (HeadingComma r) (Comment r)
                (Z.of_nat (length record)) (NoHeading r) (hasEndingComma r)
                (mkScanner rest None tok' None) true).
Proof.
  unfold row_ok. cbv zeta.
  set (toks := map (value_token w) record).
  set (line := Join toks (Writer.Comma w)).
  intros [[[_ Htok]%andb_prop Hline]%andb_prop Hbad]%andb_prop
    Hne HC HL Hfpr Hsc.
  assert (E : Scan (scanner r) = (true, mkScanner rest None line None))
    by (rewrite Hsc; now apply Scan_line).
  assert (Hn : toks <> [])
    by (unfold toks; destruct record; [congruence | discriminate]).
  exists line. rewrite (Read_line r E). cbv zeta.
  change (Text (mkScanner rest None line None)) with line.
  assert (Hf : fields (Writer.Comma w) line = toks)
    by (unfold line; now apply fields_Join).
  rewrite HC, !Hf.
  assert (Hl : length toks = length record) by (unfold toks; apply length_map).
  rewrite Hl.
  assert (He : establish (set_scanner r (mkScanner rest None line None))
                 (Z.of_nat (length record))
               = mkReader (Writer.Comma w) (HeadingComma r) (Comment r)
                   (Z.of_nat (length record)) (NoHeading r) (hasEndingComma r)
                   (mkScanner rest None line None) true).
  { unfold establish, set_lineRead, set_FieldsPerRecord, set_scanner.
    cbn [lineRead FieldsPerRecord Comma HeadingComma Comment NoHeading
         hasEndingComma scanner].
    rewrite HL. cbn [negb]. rewrite <- HC.
    destruct Hfpr as [F | F]; rewrite !F.
    - reflexivity.
    - destruct (Z.of_nat (length record) =? 0); reflexivity. }
  rewrite He. cbn [FieldsPerRecord]. rewrite Z.eqb_refl. cbn [negb].
  destruct (first_bad toks 0); [discriminate|]. reflexivity.
Qed.

(** X14. Without a heading: take a writer that has not failed, on a sink
    that never fails and has nothing yet, and a table with a row at least,
    whose rows all have the same number of values, one or more, each
    written as a token that is read back ([row_ok]).  [WriteAll] with a nil
    heading succeeds, and over the bytes it wrote [ReadAll], called without
    [ReadHeading], with the same delimiter and an expected field count that
    is not set or is that number, returns the table of the same shape in
    which each value is what [ParseFloat] makes of what [FormatFloat] wrote
    for it.  The comment prefix of the reader plays no part. *)
Theorem WriteAll_ReadAll_no_heading w data row rows n hc comment fpr nh hec :
  good (Writer.w w) ->
  out (Writer.w w) = "" ->
  rows_of data = Ret (row :: rows) ->
  forallb (row_ok w (S n)) (row :: rows) = true ->
  fpr = 0 \/ fpr = Z.of_nat (S n) ->
  exists w' r2,
    WriteAll w None data = Ret (None, w')
    /\ ReadAll
         (mkReader (Writer.Comma w) hc comment fpr nh hec
            (NewScanner (io.written (wr (Writer.w w'))) None) false)
       = Ret ((Some (table (Z.of_nat (S n))
                       (map (read_back w) (row :: rows))), None), r2).
Proof.
  intros G Hout Hrows Hr Hfpr.
  destruct (@WriteAll_wrote_w w None data (row :: rows) Hrows)
    as (res & w' & WA & (Hwr & _ & Hg) & Hb).
  destruct (Hg G) as [-> _].
  pose proof (flushed_written Hwr (Hb eq_refl)) as Hw.
  rewrite Hout in Hw. cbn [String.append text] in Hw.
  exists w'.
  set (r := mkReader (Writer.Comma w) hc comment fpr nh hec
              (NewScanner (io.written (wr (Writer.w w'))) None) false).
  cbn [forallb] in Hr. apply andb_prop in Hr as [Hrow Hrest].
  assert (Hlen : length row = S n).
  { unfold row_ok in Hrow. cbv zeta in Hrow.
    apply andb_prop in Hrow as [[[Hl _]%andb_prop _]%andb_prop _].
    now apply Nat.eqb_eq in Hl. }
  rewrite <- Hlen in Hrow.
  destruct (@Read_written_first r w row (Writer.UseCRLF w) (rows_text w rows) ""
              Hrow) as (tok1 & R); auto.
  { destruct row; discriminate. }
  { rewrite Hlen. exact Hfpr. }
  { unfold r, NewScanner. cbn [scanner]. rewrite Hw.
    unfold rows_text. cbn [map Str.cat fold_right].
    unfold row_text at 1, eol. now rewrite Str.app_assoc. }
  set (r1 := mkReader (Comma r) (HeadingComma r) (Comment r)
               (Z.of_nat (length row)) (NoHeading r) (hasEndingComma r)
               (mkScanner (rows_text w rows) None tok1 None) true) in *.
  destruct (@Reads_written _ _ w rows r1 tok1 n Hrest) as (r2 & tok2 & HR & Hr2);
    auto; [unfold r1; cbn [FieldsPerRecord]; now rewrite Hlen|].
  assert (Rend : Read r2
     = ((None, None), set_scanner r2 (mkScanner "" None "" None))).
  { rewrite (@Read_end _ _ r2 (mkScanner "" None "" None)); [reflexivity|].
    rewrite Hr2. reflexivity. }
  exists (set_scanner r2 (mkScanner "" None "" None)).
  split; [exact WA|].
  assert (HR' : Reads r (map (read_back w) (row :: rows)) r2)
    by (econstructor; eauto).
  rewrite (ReadAll_Reads HR' Rend).
  cbn [FieldsPerRecord set_scanner map]. rewrite Hr2.
  cbn [FieldsPerRecord set_scanner r1]. now rewrite Hlen.
Qed.

(** ** Fields of the reader that have no effect *)

Ltac reader_fields :=
  cbn [Comma HeadingComma Comment FieldsPerRecord NoHeading hasEndingComma
       scanner lineRead fst snd negb].

Lemma ReadHeading_with_unused r hc nh hec :
  ReadHeading (with_unused r hc nh hec)
  = (fst (ReadHeading r), with_unused (snd (ReadHeading r)) hc nh hec).
Proof.
  destruct r as [c hc0 cm f nh0 hec0 sc lr].
  unfold ReadHeading, with_unused, set_scanner, set_lineRead,
    set_FieldsPerRecord.
  reader_fields.
  destruct (heading_line cm sc "") as [line s]. reader_fields.
  destruct (Err s); [reflexivity|].
  destruct (negb _ && negb _); [reflexivity|].
  destruct (nonblank _); reflexivity.
Qed.

Lemma Read_with_unused r hc nh hec :
  Read (with_unused r hc nh hec)
  = (fst (Read r), with_unused (snd (Read r)) hc nh hec).
Proof.
  destruct r as [c hc0 cm f nh0 hec0 sc lr].
  unfold Read, with_unused, set_scanner, set_lineRead, set_FieldsPerRecord.
  reader_fields.
  destruct (Scan sc) as [[|] s]; reader_fields; [|reflexivity].
  destruct lr; reader_fields.
  - destruct (Z.of_nat _ =? f); reader_fields; [|reflexivity].
    destruct (parse_fields _ _ _); reflexivity.
  - destruct (f =? 0); reader_fields;
      (destruct (Z.of_nat _ =? _); reader_fields; [|reflexivity]);
      destruct (parse_fields _ _ _); reflexivity.
Qed.

Lemma Read_with_unused_eq r hc nh hec res r' :
  Read r = (res, r') ->
  Read (with_unused r hc nh hec) = (res, with_unused r' hc nh hec).
Proof. intros R. now rewrite Read_with_unused, R. Qed.

Lemma Reads_with_unused r rows r1 hc nh hec :
  Reads r rows r1 ->
  Reads (with_unused r hc nh hec) rows (with_unused r1 hc nh hec).
Proof.
  induction 1 as [r | r row ra rows r1 R Hrest IH]; [constructor|].
  econstructor; [|exact IH]. now apply Read_with_unused_eq.
Qed.

(** X15. [NoHeading], [HeadingComma] and [hasEndingComma] have no effect:
    with other values in these fields [ReadHeading], [Read] and [ReadAll]
    return the same results and leave the same reader, but for these
    fields. *)
Theorem unused_configuration r hc nh hec :
  ReadHeading (with_unused r hc nh hec)
  = (fst (ReadHeading r), with_unused (snd (ReadHeading r)) hc nh hec)
  /\ Read (with_unused r hc nh hec)
     = (fst (Read r), with_unused (snd (Read r)) hc nh hec)
  /\ exists res r',
       ReadAll r = Ret (res, r')
       /\ ReadAll (with_unused r hc nh hec)
          = Ret (res, with_unused r' hc nh hec).
Proof.
  split; [apply ReadHeading_with_unused|]. split; [apply Read_with_unused|].
  destruct (ReadAll_spec r) as (rows & r1 & r2 & HR & Hres).
  pose proof (Reads_with_unused hc nh hec HR) as HR'.
  destruct Hres as [(e & R1 & RA) | (R1 & RA & _)]; rewrite RA;
    do 2 eexists; (split; [reflexivity|]);
    apply (@Read_with_unused_eq _ hc nh hec) in R1.
  - exact (ReadAll_Reads_error HR' R1).
  - exact (ReadAll_Reads HR' R1).
Qed.

(** ** The benchmark *)

(** X16. The statements that read the data file of the benchmark never
    panic, and the check of the number of columns is a check of the
    heading: when [ReadHeading] and [ReadAll] return no error, the table is
    passed on if the heading has four names and the program stops with
    the message if it has not, whatever the rows hold. *)
Theorem read_data_checks_heading data e :
  let r0 := set_Comma (NewReader data e) " " in
  (exists res, read_data data e = Ret res)
  /\ (forall h r1 mat r2,
        ReadHeading r0 = ((h, None), r1) ->
        ReadAll r1 = Ret ((Some mat, None), r2) ->
        mat64.Cols mat = slice_len h
        /\ read_data data e
           = Ret (if slice_len h =? 4 then inr mat
                  else inl (FatalMessage "Code assumes there are 4 columns")))
  /\ (forall mat, read_data data e = Ret (inr mat) ->
        mat64.Cols mat = 4
        /\ exists h r1 r2,
             ReadHeading r0 = ((Some h, None), r1) /\ length h = 4%nat
             /\ ReadAll r1 = Ret ((Some mat, None), r2)).
Proof.
  intros r0.
  assert (Hcols : forall h r1 mat e' r2,
    ReadHeading r0 = ((h, None), r1) ->
    ReadAll r1 = Ret ((Some mat, e'), r2) ->
    e' = None /\ mat64.Cols mat = slice_len h).
  { intros h r1 mat e' r2 RH RA.
    apply ReadHeading_count in RH as [L F].
    destruct (ReadAll_spec r1) as (rows & ra & rb & HR & Hres).
    destruct Hres as [(e1 & R1 & RA') | (R1 & RA' & _)];
      rewrite RA' in RA; [discriminate|].
    injection RA as <- <- <-. split; auto. cbn [table mat64.Cols].
    rewrite (Reads_expected HR R1), expected_lineRead; auto. }
  unfold read_data. fold r0.
  destruct (ReadHeading r0) as [[h [err|]] r1] eqn:RH.
  { split; [eauto|]. split; [intros; discriminate | intros mat [=]]. }
  destruct (ReadAll_spec r1) as (rows & ra & rb & HR & Hres).
  destruct Hres as [(e1 & R1 & RA) | (R1 & RA & _)]; rewrite RA; cbn [bind].
  { split; [eauto|]. split; [|intros mat [=]].
    intros h' r1' mat r2 [= <- <-] RA'. rewrite RA in RA'. discriminate. }
  destruct (Hcols _ _ _ _ _ eq_refl RA) as [_ Hc].
  cbn [table mat64.Cols] in Hc.
  unfold mat64.Dims. cbn [table mat64.Rows mat64.Cols].
  rewrite Hc in RA |- *.
  split; [|split].
  - destruct (slice_len h =? 4); cbn [negb]; eauto.
  - intros h' r1' mat r2 [= <- <-] RA'. rewrite RA in RA'.
    injection RA' as <- <-. split; [reflexivity|].
    destruct (slice_len h =? 4); reflexivity.
  - destruct (Z.eqb_spec (slice_len h) 4) as [E4|E4]; cbn [negb];
      intros mat [= <-]. split; [exact E4|].
    destruct h as [h|]; cbn [slice_len] in E4; [|discriminate].
    exists h, r1, rb. repeat split; auto. lia.
Qed.

End WriterReader.

(** ** The last line *)

Lemma IndexByte_app_Some x y c i :
  IndexByte x c = Some i -> IndexByte (x ++ y) c = Some i.
Proof.
  revert i; induction x as [|d x IH]; cbn [IndexByte String.append]; intros i;
    [discriminate|].
  destruct (Ascii.eqb d c); auto.
  destruct (IndexByte x c) as [j|]; [|discriminate].
  now rewrite (IH j eq_refl).
Qed.

Lemma last_IndexByte x c :
  Str.last x = Some c -> exists i, IndexByte x c = Some i.
Proof.
  induction x as [|d x IH]; [discriminate|].
  cbn [Str.last IndexByte]. destruct (Ascii.eqb_spec d c) as [->|Hne]; eauto.
  destruct x as [|d' x']; [intros [= ->]; congruence|].
  intros Hl. destruct (IH Hl) as [i ->]. eauto.
Qed.

Lemma drop_app_le n x y :
  (n <= String.length x)%nat -> Str.drop n (x ++ y) = Str.drop n x ++ y.
Proof.
  revert x; induction n as [|n IH]; intros [|c x] Hn; simpl in *; auto; try lia.
  apply IH. lia.
Qed.

Lemma take_app_lt n x y :
  (n <= String.length x)%nat -> Str.take n (x ++ y) = Str.take n x.
Proof.
  revert x; induction n as [|n IH]; intros [|c x] Hn; simpl in *; auto; try lia.
  rewrite IH by lia. reflexivity.
Qed.

Lemma head_app_le x y : forall n,
  n <= len x -> Str.head (x ++ y) n = Str.head x n.
Proof.
  induction x as [|c x IH]; intros n Hn.
  - change (len "") with 0 in Hn. cbn [String.append Str.head].
    destruct y; cbn [Str.head]; auto.
    destruct (Z.leb_spec n 0); [reflexivity | lia].
  - cbn [String.append Str.head]. destruct (n <=? 0); auto.
    rewrite IH; auto. unfold len in *. cbn [String.length] in Hn. lia.
Qed.

Lemma last_drop n x :
  (n < String.length x)%nat -> Str.last (Str.drop n x) = Str.last x.
Proof.
  revert x; induction n as [|n IH]; intros [|c x] Hn; simpl in *; auto; try lia.
  rewrite IH by lia. destruct x; [simpl in Hn; lia | reflexivity].
Qed.

Lemma drop_all n x : (String.length x <= n)%nat -> Str.drop n x = "".
Proof.
  revert x; induction n as [|n IH]; intros [|c x] Hn; simpl in *; auto; try lia.
  apply IH. lia.
Qed.

Lemma ends_lines_drop n text : ends_lines text -> ends_lines (Str.drop n text).
Proof.
  intros [-> | Hl]; [left; now destruct n|].
  destruct (Nat.lt_ge_cases n (String.length text)).
  - right. now rewrite last_drop.
  - left. now apply drop_all.
Qed.

(** One step of the scanner on a stream and on the same stream with the
    line feed that its last line lacks. *)
Lemma Scan_unterminated s1 s2 :
  unterminated s1 s2 ->
  exists b s1' s2',
    Scan s1 = (b, s1') /\ Scan s2 = (b, s2')
    /\ (s2' = s1' \/ unterminated s1' s2').
Proof.
  intros (text & line & Ht & Hl & Hne & -> & ->). cbn [token].
  unfold Scan. cbn [err src srcEnd].
  destruct Ht as [-> | Hlast].
  - cbn [String.append]. rewrite Hl.
    rewrite (IndexByte_app line nl LF Hl). cbn [IndexByte nl].
    rewrite Ascii.eqb_refl, Z.add_0_r.
    destruct (Z.leb_spec MaxScanTokenSize (len line)) as [Hlong|Hshort].
    + replace (len line <? MaxScanTokenSize) with false
        by (symmetry; apply Z.ltb_ge; lia).
      do 3 eexists. split; [reflexivity|]. split; [reflexivity|]. left.
      now rewrite head_app_le.
    + replace (len line <? MaxScanTokenSize) with true
        by (symmetry; apply Z.ltb_lt; lia).
      replace (Str.is_empty line) with false
        by (destruct line; [congruence | reflexivity]).
      do 3 eexists. split; [reflexivity|]. split; [reflexivity|]. left.
      rewrite take_len_app.
      replace (Z.to_nat (len line + 1))
        with (String.length (line ++ String LF ""))
        by (unfold len; rewrite Str.length_app; simpl; lia).
      change (line ++ nl) with (line ++ String LF "").
      now rewrite drop_all by lia.
  - destruct (last_IndexByte _ Hlast) as [i Hi].
    pose proof (IndexByte_bounds _ _ Hi) as Hb. unfold len in Hb.
    rewrite (@IndexByte_app_Some text line LF i Hi).
    rewrite (@IndexByte_app_Some text (line ++ nl) LF i Hi).
    destruct (Z.ltb_spec i MaxScanTokenSize) as [Hshort|Hlong].
    + do 3 eexists. split; [reflexivity|]. split; [reflexivity|]. right.
      exists (Str.drop (Z.to_nat (i + 1)) text), line.
      split; [apply ends_lines_drop; now right|].
      split; auto. split; auto. cbn [token].
      rewrite !take_app_lt, !drop_app_le by lia. auto.
    + do 3 eexists. split; [reflexivity|]. split; [reflexivity|]. left.
      rewrite !head_app_le; auto; unfold len; lia.
Qed.

Lemma unterminated_fields s1 s2 :
  unterminated s1 s2 ->
  token s2 = token s1 /\ err s1 = None /\ err s2 = None.
Proof.
  intros (text & line & _ & _ & _ & E1 & ->). rewrite E1. auto.
Qed.

Lemma establish_set_scanner {float64 : Type} `{Strconv float64} r s n :
  establish (set_scanner r s) n = set_scanner (establish r n) s.
Proof.
  unfold establish. cbn [lineRead set_scanner FieldsPerRecord].
  destruct (lineRead r); cbn [negb]; [reflexivity|].
  cbn [set_lineRead FieldsPerRecord set_scanner].
  destruct (FieldsPerRecord r =? 0); reflexivity.
Qed.

Section LastLine.
Context {float64 : Type} `{Strconv float64}.

Lemma same_but_refl r : same_but r r.
Proof. split; [now destruct r | now left]. Qed.

Lemma Read_same_but r1 r2 res r1' :
  same_but r1 r2 -> Read r1 = (res, r1') ->
  exists r2', Read r2 = (res, r2') /\ same_but r1' r2'.
Proof.
  intros [E [Hs | Hu]] R.
  - assert (r2 = r1) as -> by (rewrite E, Hs; now destruct r1).
    exists r1'. split; auto. apply same_but_refl.
  - destruct (Scan_unterminated Hu) as (b & s1' & s2' & E1 & E2 & Hnext).
    assert (Htok : Text s2' = Text s1' /\ Err s2' = Err s1').
    { destruct Hnext as [-> | Hu']; auto.
      apply unterminated_fields in Hu' as (Ht & He1 & He2).
      unfold Text, Err. rewrite Ht, He1, He2. auto. }
    destruct Htok as [Ht He].
    destruct b.
    + pose proof (Read_line r1 E1) as R1. cbv zeta in R1.
      pose proof (Read_line r2 E2) as R2. cbv zeta in R2.
      rewrite R in R1. rewrite R2. rewrite Ht.
      replace (Comma r2) with (Comma r1) by (rewrite E; reflexivity).
      set (n := Z.of_nat (length (fields (Comma r1) (Text s1')))) in *.
      assert (E' : establish (set_scanner r2 s2') n
                   = set_scanner (establish (set_scanner r1 s1') n) s2').
      { rewrite E. now rewrite !establish_set_scanner. }
      rewrite E'.
      set (q := establish (set_scanner r1 s1') n) in *.
      assert (Hq : scanner q = s1') by (unfold q; apply establish_scanner).
      assert (Hsb : same_but q (set_scanner q s2')).
      { split; [reflexivity|]. cbn [scanner set_scanner]. rewrite Hq.
        destruct Hnext; auto. }
      cbn [FieldsPerRecord set_scanner].
      destruct (negb _).
      * injection R1 as -> ->. eauto.
      * destruct (first_bad _ 0) as [[[? ?] ?]|]; injection R1 as -> ->; eauto.
    + rewrite (Read_end r1 E1) in R. injection R as <- <-.
      rewrite (Read_end r2 E2), He. eexists. split; [reflexivity|].
      split; [rewrite E; reflexivity|]. cbn [scanner set_scanner].
      destruct Hnext; auto.
Qed.

Lemma Reads_same_but r1 rows r1' :
  Reads r1 rows r1' -> forall r2, same_but r1 r2 ->
  exists r2', Reads r2 rows r2' /\ same_but r1' r2'.
Proof.
  induction 1 as [r | r row ra rows r1' R Hrest IH]; intros r2 Hsb.
  - exists r2. split; [constructor | auto].
  - destruct (Read_same_but Hsb R) as (rb & R2 & Hsb').
    destruct (IH rb Hsb') as (r2' & HR & Hsb'').
    exists r2'. split; [econstructor; eauto | auto].
Qed.

Lemma ReadAll_same_but r1 r2 :
  same_but r1 r2 ->
  exists res q1 q2,
    ReadAll r1 = Ret (res, q1) /\ ReadAll r2 = Ret (res, q2)
    /\ same_but q1 q2.
Proof.
  intros Hsb.
  destruct (ReadAll_spec r1) as (rows & ra & rb & HR & Hres).
  destruct (Reads_same_but HR Hsb) as (ra2 & HR2 & Hsb2).
  destruct Hres as [(e & R1 & RA) | (R1 & RA & _)];
    destruct (Read_same_but Hsb2 R1) as (rb2 & R2 & Hsb3); rewrite RA.
  - do 3 eexists. split; [reflexivity|]. split; [|exact Hsb3].
    exact (ReadAll_Reads_error HR2 R2).
  - do 3 eexists. split; [reflexivity|]. split; [|exact Hsb3].
    rewrite (ReadAll_Reads HR2 R2).
    destruct Hsb3 as [-> _]. reflexivity.
Qed.

Lemma heading_line_same_but comment s1 l :
  forall line s1' s2,
  heading_line comment s1 l = (line, s1') ->
  s2 = s1 \/ unterminated s1 s2 ->
  exists s2', heading_line comment s2 l = (line, s2')
    /\ Err s2' = Err s1' /\ (s2' = s1' \/ unterminated s1' s2').
Proof.
  funelim (heading_line comment s1 l); intros line0 s1' s2 HL Hrel.
  - (* the scanner has a line *)
    assert (Hstep : exists s2', Scan s2 = (true, s2')
       /\ Text s2' = Text s' /\ Err s2' = Err s'
       /\ (s2' = s' \/ unterminated s' s2')).
    { destruct Hrel as [-> | Hu]; [exists s'; auto|].
      destruct (Scan_unterminated Hu) as (b & x1 & x2 & E1 & E2 & Hnext).
      rewrite e in E1. injection E1 as <- <-.
      exists x2. split; auto.
      destruct Hnext as [-> | Hu']; auto.
      pose proof (unterminated_fields Hu') as (Ht & He1 & He2).
      unfold Text, Err. rewrite Ht, He1, He2. auto. }
    destruct Hstep as (s2' & E2 & Ht & He & Hnext).
    rewrite heading_line_step, E2, Ht.
    revert HL.
    destruct (String.eqb (Text s') "").
    + intros HL.
      match goal with
      | IH : forall _ _ _, heading_line _ _ _ = _ -> _ |- _ => eapply IH; eauto
      end.
    + destruct (negb (String.eqb comment "") && HasPrefix (Text s') comment).
      * intros HL.
        match goal with
        | IH : forall _ _ _, heading_line _ _ _ = _ -> _ |- _ =>
            eapply IH; eauto
        end.
      * intros [= <- <-]. eauto.
  - (* the scanner has none *)
    injection HL as <- <-.
    assert (Hstep : exists s2', Scan s2 = (false, s2')
       /\ Err s2' = Err s' /\ (s2' = s' \/ unterminated s' s2')).
    { destruct Hrel as [-> | Hu]; [exists s'; auto|].
      destruct (Scan_unterminated Hu) as (b & x1 & x2 & E1 & E2 & Hnext).
      rewrite e in E1. injection E1 as <- <-.
      exists x2. split; auto.
      destruct Hnext as [-> | Hu']; auto.
      pose proof (unterminated_fields Hu') as (Ht & He1 & He2).
      unfold Err. rewrite He1, He2. auto. }
    destruct Hstep as (s2' & E2 & He & Hnext).
    rewrite heading_line_step, E2. eauto.
Qed.

Lemma ReadHeading_same_but r1 r2 :
  same_but r1 r2 ->
  fst (ReadHeading r2) = fst (ReadHeading r1)
  /\ same_but (snd (ReadHeading r1)) (snd (ReadHeading r2)).
Proof.
  intros [E Hrel].
  assert (Hrel' : scanner r2 = scanner r1
                  \/ unterminated (scanner r1) (scanner r2)) by exact Hrel.
  unfold ReadHeading.
  destruct (heading_line (Comment r1) (scanner r1) "") as [line s1'] eqn:HL.
  destruct (@heading_line_same_but _ _ _ _ _ (scanner r2) HL Hrel')
    as (s2' & HL2 & He & Hnext).
  replace (Comment r2) with (Comment r1) by (rewrite E; reflexivity).
  rewrite HL2.
  assert (Hsb : forall q, scanner q = s1' -> same_but q (set_scanner q s2')).
  { intros q Hq. split; [reflexivity|]. cbn [scanner set_scanner].
    rewrite Hq. exact Hnext. }
  rewrite E. cbn [Comma HeadingComma FieldsPerRecord set_scanner].
  rewrite He. destruct (Err s1').
  - split; [reflexivity|]. cbn [snd]. now apply (Hsb (set_scanner r1 s1')).
  - destruct (negb _ && negb _).
    + split; [reflexivity|]. cbn [snd]. now apply (Hsb (set_scanner r1 s1')).
    + destruct (nonblank _); (split; [reflexivity|]); cbn [snd];
        apply (Hsb (set_lineRead (set_FieldsPerRecord (set_scanner r1 s1') _)
                      true)); reflexivity.
Qed.

(** X17. The line feed at the end of the last line is optional.  Take a
    stream that ends cleanly, with a last line that is not empty and has no
    line feed after it, and the same stream with that line feed.  On both,
    [ReadHeading] returns the same heading or error, and [ReadAll], called
    first or after [ReadHeading], the same table or error. *)
Theorem last_line_feed_is_optional r text line tok :
  ends_lines text -> IndexByte line LF = None -> line <> "" ->
  scanner r = mkScanner (text ++ line) None tok None ->
  let r2 := set_scanner r (mkScanner (text ++ line ++ nl) None tok None) in
  fst (ReadHeading r2) = fst (ReadHeading r)
  /\ (exists res q q2, ReadAll r = Ret (res, q) /\ ReadAll r2 = Ret (res, q2))
  /\ (exists res q q2,
        ReadAll (snd (ReadHeading r)) = Ret (res, q)
        /\ ReadAll (snd (ReadHeading r2)) = Ret (res, q2)).
Proof.
  intros Ht Hl Hne Hsc r2.
  assert (Hsb : same_but r r2).
  { split; [reflexivity|]. right. cbn [scanner set_scanner r2].
    exists text, line. rewrite Hsc. auto 10. }
  destruct (ReadHeading_same_but Hsb) as [A B].
  split; [exact A|]. split.
  - destruct (ReadAll_same_but Hsb) as (res & q & q2 & RA1 & RA2 & _). eauto.
  - destruct (ReadAll_same_but B) as (res & q & q2 & RA1 & RA2 & _). eauto.
Qed.

End LastLine.

(** ** Runs on the reference instance *)

Import strconv.

Ltac run := vm_compute; reflexivity.

(** C3. The reader is given the field delimiter [","] and the heading
    delimiter [";"], and the heading line [a;b].  [ReadHeading] works out
    the delimiter to use ([comma]) and then splits on [r.Comma] all the
    same: the heading is the single name [a;b], where a split on the heading
    delimiter gives [a] and [b]. *)
Theorem ReadHeading_splits_on_Comma :
  let r := mkReader "," ";" "" 0 false false
             (NewScanner ("a;b" ++ nl) None) false in
  fst (ReadHeading r) = (Some ["a;b"], None)
  /\ FieldsPerRecord (snd (ReadHeading r)) = 1
  /\ nonblank (Split "a;b" ";") = ["a"; "b"].
Proof. vm_compute. auto. Qed.

(** C10. With the comment prefix [#] and a stream that holds the one line
    [#a,b], the heading search skips the line and meets the end of the
    stream, but [line] still holds the skipped text: [ReadHeading] returns
    its two tokens as the heading and sets the expected field count to 2. *)
Theorem ReadHeading_comment_only_stream :
  let r := mkReader "," "" "#" 0 false false
             (NewScanner ("#a,b" ++ nl) None) false in
  fst (Scan (scanner (snd (ReadHeading r)))) = false
  /\ fst (ReadHeading r) = (Some ["#a"; "b"], None)
  /\ FieldsPerRecord (snd (ReadHeading r)) = 2.
Proof. vm_compute. auto. Qed.

(** C4 fails as stated. The lines [x,1] and [1,x] have their bad token at
    field 0 and at field 1, and [Read] returns the very same error for
    both: no function of the error tells the position.  And when the
    expected field count is 2, the line [1,x,3] yields [ErrFieldCount], not
    the error of the parse. *)
Lemma Read_error_without_position :
  let r1 := NewReader ("x,1" ++ nl) None in
  let r2 := NewReader ("1,x" ++ nl) None in
  let r3 := set_FieldsPerRecord (NewReader ("1,x,3" ++ nl) None) 2 in
  let e := NumError "ParseFloat" "x" ErrSyntax in
  first_bad (fields "," "x,1") 0 = Some (0, "x", e)
  /\ first_bad (fields "," "1,x") 0 = Some (1, "x", e)
  /\ fst (Read r1) = (None, Some e)
  /\ fst (Read r2) = (None, Some e)
  /\ ~ (exists position : error -> Z,
         forall r i str e',
           first_bad (fields (Comma r) (Text (snd (Scan (scanner r))))) 0
             = Some (i, str, e') ->
           exists e'', snd (fst (Read r)) = Some e'' /\ position e'' = i)
  /\ fst (Read r3) = (None, Some ErrFieldCount).
Proof.
  cbv zeta. split; [run|]. split; [run|]. split; [run|]. split; [run|].
  split; [|run].
  intros [position Hp].
  assert (H1 : exists e'', snd (fst (Read (NewReader ("x,1" ++ nl) None))) = Some e''
                           /\ position e'' = 0).
  { apply (Hp _ 0 "x" (NumError "ParseFloat" "x" ErrSyntax)). run. }
  assert (H2 : exists e'', snd (fst (Read (NewReader ("1,x" ++ nl) None))) = Some e''
                           /\ position e'' = 1).
  { apply (Hp _ 1 "x" (NumError "ParseFloat" "x" ErrSyntax)). run. }
  destruct H1 as (e1 & H1 & P1). destruct H2 as (e2 & H2 & P2).
  vm_compute in H1, H2. injection H1 as <-. injection H2 as <-.
  rewrite P1 in P2. discriminate.
Qed.

Lemma Read_parse_error_witness :
  Read (NewReader ("1,x,3" ++ nl) None)
  = ((None, Some (NumError "ParseFloat" "x" ErrSyntax)),
     mkReader "," "" "" 3 false false (mkScanner "" None "1,x,3" None) true)
  /\ exists k, NumError "ParseFloat" "x" ErrSyntax = NumError "ParseFloat" "x" k.
Proof.
  assert (E : Scan (scanner (NewReader ("1,x,3" ++ nl) None))
              = (true, mkScanner "" None "1,x,3" None)) by run.
  pose proof (@Read_parse_error _ _ _ _ 1 "x"
           (NumError "ParseFloat" "x" ErrSyntax) E) as W.
  cbv zeta in W.
  apply W; run.
Defined.

Lemma Read_after_end_witness :
  let r' := set_scanner (NewReader "" None) (mkScanner "" None "" None) in
  fst (Scan (scanner (NewReader "" None))) = false
  /\ Read (Nat.iter 3 (fun x => snd (Read x)) r') = ((None, None), r').
Proof.
  intros r'.
  assert (R : Read (NewReader "" None) = ((None, None), r')) by run.
  destruct (Read_after_end _ R) as [E HR].
  split; [exact E | exact (HR 3%nat)].
Defined.


Lemma ReadAll_rectangular_witness :
  let r := NewReader ("1,2" ++ nl ++ "3,4" ++ nl) None in
  let rows := [[1; 2]; [3; 4]]%float in
  let r' := mkReader "," "" "" 2 false false (mkScanner "" None "" None) true in
  mat64.Cols (table 2 rows) = FieldsPerRecord r'
  /\ FieldsPerRecord r' = expected r.
Proof.
  intros r rows r'.
  assert (RA : ReadAll r = Ret ((Some (table 2 rows), None), r')) by run.
  destruct (ReadAll_rectangular _ RA) as (_ & Hc & _ & He & _).
  split; [exact Hc | exact He].
Defined.




Example text_ex :
  text (NewWriter (io.mkWriter "" None (StreamError "")))
    (Some ["a"; "b"]) [[1; 1 / 10]; [-3; 2]]%float
  = "a,b" ++ nl ++ "1.0000000000000000e+00,1.0000000000000001e-01" ++ nl
    ++ "-3.0000000000000000e+00,2.0000000000000000e+00" ++ nl.
Proof. run. Qed.



Lemma read_back_exact :
  map (read_back (NewWriter (io.mkWriter "" None (StreamError ""))))
    [[1; 1 / 10]; [-3; 2]]%float = [[1; 1 / 10]; [-3; 2]]%float.
Proof. run. Qed.

Lemma len_zeros n : len (zeros n) = Z.of_nat n.
Proof.
  unfold len. f_equal. induction n as [|n IH]; simpl; congruence.
Qed.

Lemma IndexByte_zeros n : IndexByte (zeros n) LF = None.
Proof.
  induction n as [|n IH]; [reflexivity|].
  cbn [zeros IndexByte]. rewrite IH. reflexivity.
Qed.

(** A line of [n] zeros, for [n] at least the size of the buffer. *)
Lemma too_long_line n rest :
  MaxScanTokenSize <= Z.of_nat n ->
  MaxScanTokenSize <= len (zeros n ++ rest)
  /\ forall i, IndexByte (zeros n ++ rest) LF = Some i -> MaxScanTokenSize <= i.
Proof.
  intros Hn. split.
  - rewrite len_app, len_zeros. pose proof (len_nonneg rest). lia.
  - intros i. rewrite IndexByte_app by apply IndexByte_zeros.
    destruct (IndexByte rest LF) as [j|] eqn:I; [|discriminate].
    apply IndexByte_bounds in I. intros [= <-]. rewrite len_zeros. lia.
Qed.

Lemma ReadHeading_skips_witness :
  let r := mkReader "," "" "#" 0 false false
             (NewScanner ("# data" ++ crlf ++ nl ++ "a, b" ++ nl ++ "1,2" ++ nl)
                None) false in
  ReadHeading r
  = ReadHeading (set_scanner r
      (mkScanner ("a, b" ++ nl ++ "1,2" ++ nl) None "" None))
  /\ scanner (snd (ReadHeading r)) = mkScanner ("1,2" ++ nl) None "a, b" None
  /\ fst (ReadHeading r) = (Some ["a"; "b"], None).
Proof.
  intros r.
  destruct (@ReadHeading_skips r [("# data", true); ("", false)] "a, b" false
              ("1,2" ++ nl) None "") as (A & B & C).
  - repeat constructor.
  - run.
  - run.
  - reflexivity.
  - split; [exact A|]. split; [exact B|]. rewrite C; [run | left; reflexivity].
Defined.

Lemma ReadHeading_errors_witness :
  let r := set_FieldsPerRecord (NewReader ("a,b" ++ nl) None) 3 in
  let r' := set_scanner r (mkScanner "" None "a,b" None) in
  r' = set_scanner r (scanner r')
  /\ FieldsPerRecord r' = 3 /\ lineRead r' = false
  /\ Err (scanner r') = None.
Proof.
  intros r r'.
  assert (RH : ReadHeading r = ((None, Some ErrFieldCount), r')) by run.
  destruct (ReadHeading_errors _ RH) as (_ & A & [(_ & _ & B) | (B & _)]).
  - repeat split; auto.
  - discriminate B.
Defined.

Lemma Read_ReadAll_errors_witness :
  let r := NewReader ("1,2" ++ nl ++ "3,x" ++ nl) None in
  let e := NumError "ParseFloat" "x" ErrSyntax in
  let r' := mkReader "," "" "" 2 false false (mkScanner "" None "3,x" None) true in
  ReadAll r = Ret ((None, Some e), r')
  /\ (e = ErrFieldCount
      \/ (exists str k, e = NumError "ParseFloat" str k)
      \/ stream_error (scanner r) e).
Proof.
  intros r e r'.
  assert (RA : ReadAll r = Ret ((None, Some e), r')) by run.
  split; [exact RA|].
  exact (proj2 (proj2 (Read_ReadAll_errors r e) _ _ RA)).
Defined.

Lemma Read_consumes_one_line_witness :
  let r := mkReader "," "" "" 2 false false
             (NewScanner ("1,2,3" ++ nl ++ "4,5" ++ nl) None) true in
  let s := mkScanner ("4,5" ++ nl) None "1,2,3" None in
  Read r = ((None, Some ErrFieldCount), set_scanner r s)
  /\ Read (set_scanner r s)
     = ((Some [4; 5]%float, None), set_scanner r (mkScanner "" None "4,5" None)).
Proof.
  intros r s.
  assert (E : Scan (scanner r) = (true, s)) by run.
  destruct (Read r) as [res r'] eqn:R.
  destruct (Read_consumes_one_line r E R) as (_ & _ & _ & A & _).
  rewrite (A eq_refl).
  assert (Hres : res = (None, Some ErrFieldCount)).
  { change res with (fst (res, r')). rewrite <- R. run. }
  rewrite Hres. split; [reflexivity | run].
Defined.


Lemma ReadAll_again_witness :
  let r := NewReader ("1,2" ++ nl ++ "3,4" ++ nl) None in
  let r' := mkReader "," "" "" 2 false false (mkScanner "" None "" None) true in
  ReadAll r = Ret ((Some (table 2 [[1; 2]; [3; 4]]%float), None), r')
  /\ ReadAll r' = Ret ((Some (table 2 []), None), r').
Proof.
  intros r r'.
  assert (RA : ReadAll r
               = Ret ((Some (table 2 [[1; 2]; [3; 4]]%float), None), r')) by run.
  split; [exact RA|]. exact (ReadAll_again _ RA).
Defined.

Lemma Read_line_too_long_witness :
  let r := NewReader (zeros (Z.to_nat MaxScanTokenSize) ++ nl) None in
  fst (Read r) = (None, Some ErrTooLong)
  /\ (exists r', ReadAll r = Ret ((None, Some ErrTooLong), r'))
  /\ fst (ReadHeading r) = (None, Some ErrTooLong).
Proof.
  intros r.
  assert (Hn : MaxScanTokenSize <= Z.of_nat (Z.to_nat MaxScanTokenSize))
    by (rewrite Z2Nat.id; unfold MaxScanTokenSize; lia).
  apply Read_line_too_long.
  - reflexivity.
  - exact (proj1 (too_long_line _ nl Hn)).
  - exact (proj2 (too_long_line _ nl Hn)).
Defined.

Lemma write_after_error_witness :
  let sink := io.mkWriter "" (Some 0) (StreamError "closed") in
  let w := Writer.mk "," false false "e"
             (mkWriter "1" (Some (StreamError "closed")) sink) in
  Write w [1; 2]%float = (Some (StreamError "closed"), w)
  /\ WriteHeading w ["a"] = (Some (StreamError "closed"), w)
  /\ WriteAll w None (mat64.mkDense 1 1 1 [1%float])
     = Ret (Some (StreamError "closed"), w).
Proof.
  intros sink w.
  destruct (@write_after_error _ _ w (StreamError "closed") eq_refl)
    as (A & B & _ & D).
  split; [apply A|]. split; [apply B|]. apply (D _ [[1%float]]). run.
Defined.

Lemma line_end_stays_buffered_witness :
  let w := NewWriter (io.mkWriter "" None (StreamError "")) in
  let w' := set_w w (mkWriter ("1.0000000000000000e+00" ++ nl) None
                       (io.mkWriter "" None (StreamError ""))) in
  Write w [1%float] = (None, w')
  /\ Str.last (buf (Writer.w w')) = Some LF
  /\ io.written (wr (Writer.w w')) = "".
Proof.
  intros w w'.
  assert (W : Write w [1%float] = (None, w')) by run.
  split; [exact W|]. split; [|reflexivity].
  exact (proj1 (line_end_stays_buffered w w') _ W).
Defined.

Lemma Write_fits_in_buffer_witness :
  let sink := io.mkWriter "" (Some 0) (StreamError "closed") in
  let w := NewWriter sink in
  Write w [1; 2]%float
  = (None, set_w w (mkWriter (buf (Writer.w w) ++ row_text w [1; 2]%float)
                      None sink))
  /\ WriteHeading w ["a"; "b"]
     = (None, set_w w (mkWriter (buf (Writer.w w) ++ heading_text w ["a"; "b"])
                         None sink)).
Proof.
  intros sink w.
  destruct (@Write_fits_in_buffer _ _ w eq_refl) as [A B].
  split; [apply A | apply B]; apply Z.leb_le; run.
Defined.

Lemma WriteAll_ReadAll_no_heading_witness :
  let w := NewWriter (io.mkWriter "" None (StreamError "")) in
  let data := mat64.mkDense 2 2 2 [1; 1 / 10; -3; 2]%float in
  exists w' r2,
    WriteAll w None data = Ret (None, w')
    /\ ReadAll
         (mkReader "," "" "1" 0 true false
            (NewScanner (io.written (wr (Writer.w w'))) None) false)
       = Ret ((Some (table 2 (map (read_back w) [[1; 1 / 10]; [-3; 2]]%float)),
               None), r2).
Proof.
  intros w data.
  apply (@WriteAll_ReadAll_no_heading _ _ w data [1; 1 / 10]%float
           [[-3; 2]]%float 1 "" "1" 0 true false).
  - split; reflexivity.
  - reflexivity.
  - run.
  - run.
  - left; reflexivity.
Defined.

Lemma WriteAll_in_batches_witness :
  let w := NewWriter (io.mkWriter "" None (StreamError "")) in
  let d1 := mat64.mkDense 1 2 2 [1; 2]%float in
  let d2 := mat64.mkDense 1 2 2 [3; 4]%float in
  exists w1 w2,
    WriteAll w (Some ["a"; "b"]) d1 = Ret (None, w1)
    /\ WriteAll w1 None d2 = Ret (None, w2)
    /\ io.written (wr (Writer.w w2))
       = out (Writer.w w) ++ text w (Some ["a"; "b"]) [[1; 2]; [3; 4]]%float
    /\ buf (Writer.w w2) = "".
Proof.
  intros w d1 d2.
  set (w1 := match WriteAll w (Some ["a"; "b"]) d1 with
             | Ret (_, w') => w'
             | Panic _ => w
             end).
  set (w2 := match WriteAll w1 None d2 with
             | Ret (_, w') => w'
             | Panic _ => w
             end).
  assert (WA1 : WriteAll w (Some ["a"; "b"]) d1 = Ret (None, w1)) by run.
  assert (WA2 : WriteAll w1 None d2 = Ret (None, w2)) by run.
  exists w1, w2. split; [exact WA1|]. split; [exact WA2|].
  apply (@WriteAll_in_batches _ _ w (Some ["a"; "b"]) d1 [[1; 2]]%float
           d2 [[3; 4]]%float w1 w2); auto; run.
Defined.

Lemma read_data_checks_heading_witness :
  let data := "x y z  f" ++ nl ++ "1 2  3 4" ++ nl in
  let mat := table 4 [[1; 2; 3; 4]]%float in
  read_data data None = Ret (inr mat)
  /\ mat64.Cols mat = 4
  /\ exists h r1 r2,
       ReadHeading (set_Comma (NewReader data None) " ") = ((Some h, None), r1)
       /\ length h = 4%nat
       /\ ReadAll r1 = Ret ((Some mat, None), r2).
Proof.
  intros data mat.
  assert (RD : read_data data None = Ret (inr mat)) by run.
  split; [exact RD|].
  exact (proj2 (proj2 (read_data_checks_heading data None)) mat RD).
Defined.

Lemma last_line_feed_is_optional_witness :
  let r := NewReader ("a,b" ++ nl ++ "1,2" ++ nl ++ "3,4") None in
  let r2 := set_scanner r
              (mkScanner ("a,b" ++ nl ++ "1,2" ++ nl ++ "3,4" ++ nl) None ""
                 None) in
  fst (ReadHeading r2) = fst (ReadHeading r)
  /\ (exists res q q2, ReadAll r = Ret (res, q) /\ ReadAll r2 = Ret (res, q2))
  /\ (exists res q q2,
        ReadAll (snd (ReadHeading r)) = Ret (res, q)
        /\ ReadAll (snd (ReadHeading r2)) = Ret (res, q2)).
Proof.
  intros r r2.
  apply (@last_line_feed_is_optional _ _ r ("a,b" ++ nl ++ "1,2" ++ nl) "3,4" "").
  - right. reflexivity.
  - reflexivity.
  - discriminate.
  - reflexivity.
Defined.
